(** * The metrics registry of discogo (package [metrics]) and the error
      classifier (package [errors]), embedded from the Go sources.

    Conventions of the embedding.
    - [int64] (and [time.Duration], which is an [int64] of nanoseconds) is a
      [Z] with the two's-complement wrap-around written out ([Int64.wrap]).
    - [time.Time] is an instant in nanoseconds, an unbounded [Z]; [time.Now()]
      is an explicit argument of every function that reads the clock.
    - [float64] is an interface ([Float64]) with two instances: IEEE binary64
      (Rocq's primitive floats, specified by [SpecFloat]), with which results
      are computed bit for bit and bounded, and exact rationals ([Q]), the
      real-number reading.
    - A panic is a result [None].
    - Go maps are reference values: the error map lives in a store of maps,
      and a registry holds its address. *)

From Stdlib Require Import ZArith QArith Lia List String Ascii.
From Stdlib Require Import Floats.PrimFloat Numbers.Cyclic.Int63.Uint63.
From Stdlib Require Import Floats.SpecFloat Floats.FloatOps Floats.FloatAxioms.
From stdpp Require Import base gmap strings list sorting.

Local Open Scope Z_scope.

(** ** Machine integers *)

Module Int64.

Definition min_int : Z := - 2 ^ 63.
Definition max_int : Z := 2 ^ 63 - 1.

(** Two's-complement reduction of an integer to [int64]. *)
Definition wrap (z : Z) : Z := (z + 2 ^ 63) mod 2 ^ 64 - 2 ^ 63.

Definition in_range (z : Z) : Prop := min_int <= z <= max_int.

(** [a + b], [a++] and unary [-a] on [int64]. *)
Definition add (a b : Z) : Z := wrap (a + b).
Definition incr (a : Z) : Z := wrap (a + 1).
Definition neg (a : Z) : Z := wrap (- a).

End Int64.

(** ** Floating point *)

(** The [float64] operations the registry uses.  [of_int64] is the
    conversion [float64(x)]; the literals [0.0], [100.0] and [1e9] are
    conversions of integers that both instances represent exactly. *)
Class Float64 (F : Type) : Type := {
  of_int64 : Z -> F;
  fadd : F -> F -> F;
  fmul : F -> F -> F;
  fdiv : F -> F -> F
}.

Definition fzero {F} `{Float64 F} : F := of_int64 0.
Definition fhundred {F} `{Float64 F} : F := of_int64 100.

(** [float64(x)] in IEEE binary64, rounding to nearest: the magnitude goes
    through the 63-bit unsigned conversion; [-2^63] is the one [int64] whose
    magnitude does not fit, and is a power of two. *)
Definition binary64_of_int64 (z : Z) : float :=
  if z =? Int64.min_int then (-0x1p63)%float
  else if z <? 0 then PrimFloat.opp (PrimFloat.of_uint63 (Uint63.of_Z (- z)))
  else PrimFloat.of_uint63 (Uint63.of_Z z).

#[export] Instance binary64 : Float64 float := {
  of_int64 := binary64_of_int64;
  fadd := PrimFloat.add;
  fmul := PrimFloat.mul;
  fdiv := PrimFloat.div
}.

(** The real-number reading: every operation exact.  It agrees with
    binary64 wherever no rounding occurs and the divisor is not zero. *)
#[export] Instance exact : Float64 Q := {
  of_int64 := inject_Z;
  fadd := Qplus;
  fmul := Qmult;
  fdiv := Qdiv
}.

(** ** Package [time], as far as the registry uses it *)

Module Time.

Definition Time : Type := Z.
Definition Duration : Type := Z.

Definition Second : Duration := 1000000000.

(** [t.Add(d)] *)
Definition Add (t : Time) (d : Duration) : Time := t + d.

(** [t.After(u)] *)
Definition After (t u : Time) : bool := u <? t.

(** [t.Sub(u)]: the difference, saturated to the [Duration] range. *)
Definition Sub (t u : Time) : Duration :=
  Z.max Int64.min_int (Z.min Int64.max_int (t - u)).

(** [time.Since(u)], with the clock reading [now]. *)
Definition Since (now u : Time) : Duration := Sub now u.

(** [d.Seconds()]: whole seconds and the remainder are converted
    separately ([/] and [%] truncate toward zero). *)
Definition Seconds {F} `{Float64 F} (d : Duration) : F :=
  let sec := Z.quot d Second in
  let nsec := Z.rem d Second in
  fadd (of_int64 sec) (fdiv (of_int64 nsec) (of_int64 1000000000)).

End Time.

Import Time.

(** ** RateWindow *)

Record RateWindow : Type := mkRateWindow {
  events : list Time;
  window : Duration
}.

(** [NewRateWindow(window)] *)
Definition NewRateWindow (window : Duration) : RateWindow :=
  {| events := []; window := window |}.

(** The loop of [Add]: [validEvents] grows by the events after the cutoff. *)
Definition keep_valid (cutoff : Time) (validEvents : list Time) (event : Time)
  : list Time :=
  if After event cutoff then validEvents ++ [event] else validEvents.

(** [rw.Add(timestamp)] *)
Definition Add (timestamp : Time) (rw : RateWindow) : RateWindow :=
  let events1 := events rw ++ [timestamp] in
  let cutoff := Time.Add timestamp (Int64.neg (window rw)) in
  let validEvents := fold_left (keep_valid cutoff) events1 [] in
  {| events := validEvents; window := window rw |}.

(** The loop of [Rate]: [validEvents] is an [int] that counts at most
    [len(rw.events)] events, so it never wraps. *)
Definition count_valid (cutoff : Time) (validEvents : Z) (event : Time) : Z :=
  if After event cutoff then validEvents + 1 else validEvents.

(** [rw.Rate()], with the clock reading [now].  It assigns no field of
    [rw]: the window after the call is the window before it. *)
Definition Rate {F} `{Float64 F} (now : Time) (rw : RateWindow) : F :=
  match events rw with
  | [] => fzero
  | _ =>
      let cutoff := Time.Add now (Int64.neg (window rw)) in
      let validEvents := fold_left (count_valid cutoff) (events rw) 0 in
      let windowSeconds := Seconds (window rw) in
      fdiv (of_int64 validEvents) windowSeconds
  end.

(** The operations on a window, and the window each leaves behind. *)
Inductive WindowOp : Type :=
| WAdd (timestamp : Time)
| WRate (now : Time).

Definition window_exec (op : WindowOp) (rw : RateWindow) : RateWindow :=
  match op with
  | WAdd timestamp => Add timestamp rw
  | WRate _ => rw
  end.

(** A window after the writes [ts], oldest first. *)
Definition record_all (ts : list Time) (rw : RateWindow) : RateWindow :=
  fold_left (fun rw timestamp => Add timestamp rw) ts rw.

(** ** Package [errors] *)

(** [type ErrorType string] *)
Definition ErrorType : Type := string.

Definition ErrorTypeAPI : ErrorType := "api_error"%string.
Definition ErrorTypeConfig : ErrorType := "config_error"%string.
Definition ErrorTypeDiscord : ErrorType := "discord_error"%string.
Definition ErrorTypeValidation : ErrorType := "validation_error"%string.
Definition ErrorTypeNotFound : ErrorType := "not_found_error"%string.
Definition ErrorTypeRateLimit : ErrorType := "rate_limit_error"%string.
Definition ErrorTypeNetwork : ErrorType := "network_error"%string.
Definition ErrorTypeInternal : ErrorType := "internal_error"%string.

(** [BotError], over the type [E] of the errors it can wrap.  [Context]
    only ever holds the integer ["retry_after"]. *)
Record BotError (E : Type) : Type := mkBotError {
  Type_ : ErrorType;
  Message : string;
  Cause : option E;
  StatusCode : Z;
  Context : list (string * Z)
}.

Arguments mkBotError {E}.
Arguments Type_ {E}.
Arguments Message {E}.
Arguments Cause {E}.
Arguments StatusCode {E}.
Arguments Context {E}.

(** What the [Unwrap] method of an error of another type gives: the type
    may have no such method, or [Unwrap() error], or [Unwrap() []error]
    (the errors of [errors.Join] and of [fmt.Errorf] with several [%w]).
    [None] is a nil [error]. *)
Inductive Unwrapped (E : Type) : Type :=
| NoUnwrap
| UnwrapError (inner : option E)
| UnwrapErrors (errs : list (option E)).

Arguments NoUnwrap {E}.
Arguments UnwrapError {E}.
Arguments UnwrapErrors {E}.

(** A non-nil [error] value, as far as [errors.As] with a target of type
    [**BotError] can tell errors apart:
    - [ErrBot e], a [*BotError] that points to [e];
    - [ErrNilBot], a nil [*BotError] stored in an [error] (the interface
      value is not nil, the pointer in it is);
    - [ErrOther msg asMethod unwrap], an error of any other type, with what
      its methods answer.  [asMethod] is [Some target] when the type has an
      [As(any) bool] method that answers [true] for this target, leaving the
      [*BotError] variable at [target] ([None] when it leaves it nil), and
      [None] when the type has no such method or the method answers
      [false]; [unwrap] is what its [Unwrap] method returns.
    The methods are taken to return, an [As] method that answers [false]
    to leave the target as it was, and an error to be a finite tree. *)
#[warnings="-register-all"]
Inductive error : Type :=
| ErrBot (e : BotError error)
| ErrNilBot
| ErrOther (msg : string) (asMethod : option (option (BotError error)))
           (unwrap : Unwrapped error).

(** The loop of [errors.as] over the result of [Unwrap() []error]: nil
    entries are skipped, and the first entry for which the search answers
    [true] decides. *)
Section Range.

Context {E R : Type}.
Variable search : E -> option R.

Fixpoint first_found (errs : list (option E)) : option R :=
  match errs with
  | [] => None
  | None :: rest => first_found rest
  | Some err :: rest =>
      match search err with
      | Some found => Some found
      | None => first_found rest
      end
  end.

End Range.

(** [errors.as(err, target, ...)] for a target of type [**BotError] and a
    non-nil [err].  [None] is Go's [false]; [Some botErr] is [true], with
    the pointer the target variable holds afterwards, [Some None] for a nil
    pointer.  In the order of the source: the type of [err] is tried first
    (a nil [*BotError] has the type), then its [As] method, then its
    [Unwrap] method. *)
Fixpoint errors_as (err : error) : option (option (BotError error)) :=
  match err with
  | ErrBot e => Some (Some e)
  | ErrNilBot => Some None
  | ErrOther _ (Some target) _ => Some target
  | ErrOther _ None NoUnwrap => None
  | ErrOther _ None (UnwrapError None) => None
  | ErrOther _ None (UnwrapError (Some inner)) => errors_as inner
  | ErrOther _ None (UnwrapErrors errs) => first_found errors_as errs
  end.

(** [errors.As(err, &botErr)] with [var botErr *BotError]: [false] for a
    nil [err]. *)
Definition errors_As (err : option error)
  : option (option (BotError error)) :=
  match err with
  | None => None
  | Some e => errors_as e
  end.

Definition NewAPIError (message : string) (cause : option error)
  : BotError error :=
  mkBotError ErrorTypeAPI message cause 0 [].

Definition NewValidationError (message : string) : BotError error :=
  mkBotError ErrorTypeValidation message None 0 [].

Definition NewNotFoundError (message : string) : BotError error :=
  mkBotError ErrorTypeNotFound message None 0 [].

Definition NewRateLimitError (message : string) (retryAfter : Z)
  : BotError error :=
  mkBotError ErrorTypeRateLimit message None 0
             [("retry_after"%string, retryAfter)].

Definition NewInternalError (message : string) (cause : option error)
  : BotError error :=
  mkBotError ErrorTypeInternal message cause 0 [].

(** [FromHTTPStatus(statusCode, message)]; the cases of the [switch] are
    tried in order. *)
Definition FromHTTPStatus (statusCode : Z) (message : string)
  : BotError error :=
  if statusCode =? 404 then NewNotFoundError message
  else if statusCode =? 429 then NewRateLimitError message 0
  else if (400 <=? statusCode) && (statusCode <? 500)
       then NewValidationError message
  else if 500 <=? statusCode then NewAPIError message None
  else NewInternalError message None.

(** [NewConfigError], [NewDiscordError] and [NewNetworkError] *)
Definition NewConfigError (message : string) (cause : option error)
  : BotError error :=
  mkBotError ErrorTypeConfig message cause 0 [].

Definition NewDiscordError (message : string) (cause : option error)
  : BotError error :=
  mkBotError ErrorTypeDiscord message cause 0 [].

Definition NewNetworkError (message : string) (cause : option error)
  : BotError error :=
  mkBotError ErrorTypeNetwork message cause 0 [].

(** [IsErrorType(err, errorType)].  [None] is a panic: [botErr.Type]
    dereferences the pointer [errors.As] left, which may be nil. *)
Definition IsErrorType (err : option error) (errorType : ErrorType)
  : option bool :=
  match errors_As err with
  | Some (Some botErr) => Some (String.eqb (Type_ botErr) errorType)
  | Some None => None
  | None => Some false
  end.

(** ** The registry *)

(** Addresses of Go maps, and the store that holds their contents. *)
Definition loc : Type := positive.
Abbreviation MapStore := (gmap loc (gmap ErrorType Z)).

Section Registry.

Context {F : Type} `{Float64 F}.

(** [t.Format(time.RFC3339)], a pure function of the instant. *)
Variable FormatRFC3339 : Time -> string.

(** [Metrics].  The two windows are reached only through the registry
    and are held in place; [ErrorsByType] is the address of the map. *)
Record Metrics : Type := mkMetrics {
  CommandsTotal : Z;
  CommandsSuccessful : Z;
  CommandsFailed : Z;
  CommandsPerSecond : F;
  APIRequestsTotal : Z;
  APIRequestsSuccessful : Z;
  APIRequestsFailed : Z;
  APIRequestsPerSecond : F;
  APIResponseTimeSum : Z;
  APIResponseCount : Z;
  ErrorsByType : loc;
  BotStartTime : Time;
  commandWindow : RateWindow;
  apiWindow : RateWindow
}.

(** [Summary].  [BotStartTime] is the start time as [Format(time.RFC3339)]
    prints it, for a formatter [FormatRFC3339] taken as given. *)
Record Summary : Type := mkSummary {
  sCommandsTotal : Z;
  sCommandsSuccessful : Z;
  sCommandsFailed : Z;
  sCommandsPerSecond : F;
  sCommandSuccessRate : F;
  sAPIRequestsTotal : Z;
  sAPIRequestsSuccessful : Z;
  sAPIRequestsFailed : Z;
  sAPIRequestsPerSecond : F;
  sAPISuccessRate : F;
  sAverageResponseTime : F;
  sErrorsByType : loc;
  sUptimeSeconds : F;
  sBotStartTime : string
}.

(** A registry in memory: the store of maps and the [Metrics] value a
    [*Metrics] receiver points to. *)
Record World : Type := mkWorld {
  maps : MapStore;
  self : Metrics
}.

(** [make(map[ErrorType]int64)]: a new, empty map at an unused address. *)
Definition make_map (st : MapStore) : loc * MapStore :=
  let l := fresh (dom st) in (l, <[l := ∅]> st).

(** The contents of the map at [l]; a nil map reads as empty. *)
Definition map_at (st : MapStore) (l : loc) : gmap ErrorType Z :=
  default ∅ (st !! l).

(** The registry the function passed to [once.Do] in [Initialize] builds:
    zero counters, a new error map, [time.Now()] as start time, two windows
    of 60 seconds. *)
Definition Initialize_world (now : Time) (st : MapStore) : World :=
  let '(l, st1) := make_map st in
  {| maps := st1;
     self := {| CommandsTotal := 0; CommandsSuccessful := 0;
                CommandsFailed := 0; CommandsPerSecond := fzero;
                APIRequestsTotal := 0; APIRequestsSuccessful := 0;
                APIRequestsFailed := 0; APIRequestsPerSecond := fzero;
                APIResponseTimeSum := 0; APIResponseCount := 0;
                ErrorsByType := l;
                BotStartTime := now;
                commandWindow := NewRateWindow (60 * Second);
                apiWindow := NewRateWindow (60 * Second) |} |}.

(** *** IncrementCommands, by critical section *)

(** Between [m.mutex.Lock()] and [m.mutex.Unlock()]. *)
Definition commands_locked (successful : bool) (m : Metrics) : Metrics :=
  {| CommandsTotal := Int64.incr (CommandsTotal m);
     CommandsSuccessful :=
       if successful then Int64.incr (CommandsSuccessful m)
       else CommandsSuccessful m;
     CommandsFailed :=
       if successful then CommandsFailed m
       else Int64.incr (CommandsFailed m);
     CommandsPerSecond := CommandsPerSecond m;
     APIRequestsTotal := APIRequestsTotal m;
     APIRequestsSuccessful := APIRequestsSuccessful m;
     APIRequestsFailed := APIRequestsFailed m;
     APIRequestsPerSecond := APIRequestsPerSecond m;
     APIResponseTimeSum := APIResponseTimeSum m;
     APIResponseCount := APIResponseCount m;
     ErrorsByType := ErrorsByType m;
     BotStartTime := BotStartTime m;
     commandWindow := commandWindow m;
     apiWindow := apiWindow m |}.

(** [m.commandWindow.Add(now)] *)
Definition commands_window_add (now : Time) (m : Metrics) : Metrics :=
  {| CommandsTotal := CommandsTotal m;
     CommandsSuccessful := CommandsSuccessful m;
     CommandsFailed := CommandsFailed m;
     CommandsPerSecond := CommandsPerSecond m;
     APIRequestsTotal := APIRequestsTotal m;
     APIRequestsSuccessful := APIRequestsSuccessful m;
     APIRequestsFailed := APIRequestsFailed m;
     APIRequestsPerSecond := APIRequestsPerSecond m;
     APIResponseTimeSum := APIResponseTimeSum m;
     APIResponseCount := APIResponseCount m;
     ErrorsByType := ErrorsByType m;
     BotStartTime := BotStartTime m;
     commandWindow := Add now (commandWindow m);
     apiWindow := apiWindow m |}.

(** [m.CommandsPerSecond = m.commandWindow.Rate()], the clock read by
    [Rate] being [rateNow]. *)
Definition commands_rate_store (rateNow : Time) (m : Metrics) : Metrics :=
  {| CommandsTotal := CommandsTotal m;
     CommandsSuccessful := CommandsSuccessful m;
     CommandsFailed := CommandsFailed m;
     CommandsPerSecond := Rate rateNow (commandWindow m);
     APIRequestsTotal := APIRequestsTotal m;
     APIRequestsSuccessful := APIRequestsSuccessful m;
     APIRequestsFailed := APIRequestsFailed m;
     APIRequestsPerSecond := APIRequestsPerSecond m;
     APIResponseTimeSum := APIResponseTimeSum m;
     APIResponseCount := APIResponseCount m;
     ErrorsByType := ErrorsByType m;
     BotStartTime := BotStartTime m;
     commandWindow := commandWindow m;
     apiWindow := apiWindow m |}.

(** [m.IncrementCommands(successful)]: [now] is the clock at entry,
    [rateNow] the clock inside [Rate]. *)
Definition IncrementCommands (successful : bool) (now rateNow : Time)
           (m : Metrics) : Metrics :=
  commands_rate_store rateNow
    (commands_window_add now (commands_locked successful m)).

(** *** IncrementAPIRequests, by critical section *)

Definition api_locked (successful : bool) (responseTimeMs : Z)
           (m : Metrics) : Metrics :=
  {| CommandsTotal := CommandsTotal m;
     CommandsSuccessful := CommandsSuccessful m;
     CommandsFailed := CommandsFailed m;
     CommandsPerSecond := CommandsPerSecond m;
     APIRequestsTotal := Int64.incr (APIRequestsTotal m);
     APIRequestsSuccessful :=
       if successful then Int64.incr (APIRequestsSuccessful m)
       else APIRequestsSuccessful m;
     APIRequestsFailed :=
       if successful then APIRequestsFailed m
       else Int64.incr (APIRequestsFailed m);
     APIRequestsPerSecond := APIRequestsPerSecond m;
     APIResponseTimeSum :=
       Int64.add (APIResponseTimeSum m) responseTimeMs;
     APIResponseCount := Int64.incr (APIResponseCount m);
     ErrorsByType := ErrorsByType m;
     BotStartTime := BotStartTime m;
     commandWindow := commandWindow m;
     apiWindow := apiWindow m |}.

Definition api_window_add (now : Time) (m : Metrics) : Metrics :=
  {| CommandsTotal := CommandsTotal m;
     CommandsSuccessful := CommandsSuccessful m;
     CommandsFailed := CommandsFailed m;
     CommandsPerSecond := CommandsPerSecond m;
     APIRequestsTotal := APIRequestsTotal m;
     APIRequestsSuccessful := APIRequestsSuccessful m;
     APIRequestsFailed := APIRequestsFailed m;
     APIRequestsPerSecond := APIRequestsPerSecond m;
     APIResponseTimeSum := APIResponseTimeSum m;
     APIResponseCount := APIResponseCount m;
     ErrorsByType := ErrorsByType m;
     BotStartTime := BotStartTime m;
     commandWindow := commandWindow m;
     apiWindow := Add now (apiWindow m) |}.

Definition api_rate_store (rateNow : Time) (m : Metrics) : Metrics :=
  {| CommandsTotal := CommandsTotal m;
     CommandsSuccessful := CommandsSuccessful m;
     CommandsFailed := CommandsFailed m;
     CommandsPerSecond := CommandsPerSecond m;
     APIRequestsTotal := APIRequestsTotal m;
     APIRequestsSuccessful := APIRequestsSuccessful m;
     APIRequestsFailed := APIRequestsFailed m;
     APIRequestsPerSecond := Rate rateNow (apiWindow m);
     APIResponseTimeSum := APIResponseTimeSum m;
     APIResponseCount := APIResponseCount m;
     ErrorsByType := ErrorsByType m;
     BotStartTime := BotStartTime m;
     commandWindow := commandWindow m;
     apiWindow := apiWindow m |}.

(** [m.IncrementAPIRequests(successful, responseTimeMs)] *)
Definition IncrementAPIRequests (successful : bool) (responseTimeMs : Z)
           (now rateNow : Time) (m : Metrics) : Metrics :=
  api_rate_store rateNow
    (api_window_add now (api_locked successful responseTimeMs m)).

(** *** IncrementError *)

(** [m.ErrorsByType[errorType]++] on the map at address [l]: an absent
    key reads as zero.  (Go panics on a write to a nil map; the statements
    about writes are over registries whose map is in memory, as every
    registry [Initialize] builds is.) *)
Definition map_incr (errorType : ErrorType) (l : loc) (st : MapStore)
  : MapStore :=
  let em := map_at st l in
  <[l := <[errorType := Int64.incr (default 0 (em !! errorType))]> em]> st.

(** [m.IncrementError(errorType)]: one critical section. *)
Definition IncrementError (errorType : ErrorType) (w : World) : World :=
  {| maps := map_incr errorType (ErrorsByType (self w)) (maps w);
     self := self w |}.

(** *** Readers *)

(** [m.GetAverageResponseTime()] *)
Definition GetAverageResponseTime (m : Metrics) : F :=
  let responseTimeSum := APIResponseTimeSum m in
  let responseCount := APIResponseCount m in
  if responseCount =? 0 then fzero
  else fdiv (of_int64 responseTimeSum) (of_int64 responseCount).

(** [m.GetUptime()] *)
Definition GetUptime (now : Time) (m : Metrics) : Duration :=
  Since now (BotStartTime m).

(** [m.GetSuccessRate()] *)
Definition GetSuccessRate (m : Metrics) : F :=
  let total := CommandsTotal m in
  let successful := CommandsSuccessful m in
  if total =? 0 then fzero
  else fmul (fdiv (of_int64 successful) (of_int64 total)) fhundred.

(** [m.GetAPISuccessRate()] *)
Definition GetAPISuccessRate (m : Metrics) : F :=
  let total := APIRequestsTotal m in
  let successful := APIRequestsSuccessful m in
  if total =? 0 then fzero
  else fmul (fdiv (of_int64 successful) (of_int64 total)) fhundred.

(** *** GetSummary, by critical section *)

(** First read-locked section: a new map, filled entry by entry from the
    registry's map.  Returns the address of the copy. *)
Definition copy_errors (w : World) : loc * World :=
  let '(l, st1) := make_map (maps w) in
  let src := map_at (maps w) (ErrorsByType (self w)) in
  let errorsByType :=
    map_fold (fun k v acc => <[k := v]> acc) (map_at st1 l) src in
  (l, {| maps := <[l := errorsByType]> st1; self := self w |}).

(** Second read-locked section and the three assignments after it: every
    counter is read from the one registry value [m]. *)
Definition read_summary (now : Time) (errorsByType : loc) (m : Metrics)
  : Summary :=
  let commandSuccessRate :=
    if 0 <? CommandsTotal m
    then fmul (fdiv (of_int64 (CommandsSuccessful m))
                    (of_int64 (CommandsTotal m))) fhundred
    else of_int64 0 in
  let apiSuccessRate :=
    if 0 <? APIRequestsTotal m
    then fmul (fdiv (of_int64 (APIRequestsSuccessful m))
                    (of_int64 (APIRequestsTotal m))) fhundred
    else of_int64 0 in
  let averageResponseTime :=
    if 0 <? APIResponseCount m
    then fdiv (of_int64 (APIResponseTimeSum m))
              (of_int64 (APIResponseCount m))
    else of_int64 0 in
  {| sCommandsTotal := CommandsTotal m;
     sCommandsSuccessful := CommandsSuccessful m;
     sCommandsFailed := CommandsFailed m;
     sCommandsPerSecond := CommandsPerSecond m;
     sCommandSuccessRate := commandSuccessRate;
     sAPIRequestsTotal := APIRequestsTotal m;
     sAPIRequestsSuccessful := APIRequestsSuccessful m;
     sAPIRequestsFailed := APIRequestsFailed m;
     sAPIRequestsPerSecond := APIRequestsPerSecond m;
     sAPISuccessRate := apiSuccessRate;
     sAverageResponseTime := averageResponseTime;
     sErrorsByType := errorsByType;
     sUptimeSeconds := Seconds (GetUptime now m);
     sBotStartTime := FormatRFC3339 (BotStartTime m) |}.

(** [m.GetSummary()] run without interruption. *)
Definition GetSummary (now : Time) (w : World) : Summary * World :=
  let '(errorsByType, w1) := copy_errors w in
  (read_summary now errorsByType (self w1), w1).

(** *** Package-level state and the convenience functions *)

(** [globalMetrics] ([None] is nil) and the maps in memory.  [once] has
    run exactly when [globalMetrics] is not nil. *)
Record Package : Type := mkPackage {
  pmaps : MapStore;
  globalMetrics : option Metrics
}.

(** [Initialize()]: [once.Do] builds the registry, with the clock reading
    [now], only if it has not run; the result is [globalMetrics]. *)
Definition Initialize (now : Time) (p : Package) : World :=
  match globalMetrics p with
  | None => Initialize_world now (pmaps p)
  | Some m => {| maps := pmaps p; self := m |}
  end.

(** [Get()]: the registry every caller shares, built on first use. *)
Definition Get (now : Time) (p : Package) : World :=
  match globalMetrics p with
  | None => Initialize now p
  | Some m => {| maps := pmaps p; self := m |}
  end.

Definition put (w : World) : Package :=
  {| pmaps := maps w; globalMetrics := Some (self w) |}.

(** [RecordCommand(successful)] *)
Definition RecordCommand (successful : bool) (initNow now rateNow : Time)
           (p : Package) : Package :=
  let w := Get initNow p in
  put {| maps := maps w;
         self := IncrementCommands successful now rateNow (self w) |}.

(** [RecordAPIRequest(successful, responseTimeMs)] *)
Definition RecordAPIRequest (successful : bool) (responseTimeMs : Z)
           (initNow now rateNow : Time) (p : Package) : Package :=
  let w := Get initNow p in
  put {| maps := maps w;
         self := IncrementAPIRequests successful responseTimeMs
                                      now rateNow (self w) |}.

(** [RecordError(err)].  [None] is a panic: [botErr.Type] dereferences
    the pointer [errors.As] left, which may be nil. *)
Definition RecordError (err : option error) (initNow : Time) (p : Package)
  : option Package :=
  match errors_As err with
  | Some (Some botErr) =>
      Some (put (IncrementError (Type_ botErr) (Get initNow p)))
  | Some None => None
  | None => Some (put (IncrementError ErrorTypeInternal (Get initNow p)))
  end.

(** *** Runs *)

(** What one goroutine does without another being able to observe a state
    in between: the critical sections of the writers, and the two calls on
    a window that follow each of the first two. *)
Inductive Step : Type :=
| SCommandsLocked (successful : bool)
| SCommandsWindowAdd (now : Time)
| SCommandsRateStore (rateNow : Time)
| SAPILocked (successful : bool) (responseTimeMs : Z)
| SAPIWindowAdd (now : Time)
| SAPIRateStore (rateNow : Time)
| SError (errorType : ErrorType).

Definition lift (f : Metrics -> Metrics) (w : World) : World :=
  {| maps := maps w; self := f (self w) |}.

Definition exec (w : World) (s : Step) : World :=
  match s with
  | SCommandsLocked successful => lift (commands_locked successful) w
  | SCommandsWindowAdd now => lift (commands_window_add now) w
  | SCommandsRateStore rateNow => lift (commands_rate_store rateNow) w
  | SAPILocked successful ms => lift (api_locked successful ms) w
  | SAPIWindowAdd now => lift (api_window_add now) w
  | SAPIRateStore rateNow => lift (api_rate_store rateNow) w
  | SError errorType => IncrementError errorType w
  end.

Definition run (w : World) (tr : list Step) : World := fold_left exec tr w.

(** The calls of the recording interface, and the steps each one takes. *)
Inductive Call : Type :=
| CallCommands (successful : bool) (now rateNow : Time)
| CallAPIRequests (successful : bool) (responseTimeMs : Z)
                  (now rateNow : Time)
| CallError (errorType : ErrorType).

Definition steps_of (c : Call) : list Step :=
  match c with
  | CallCommands successful now rateNow =>
      [SCommandsLocked successful; SCommandsWindowAdd now;
       SCommandsRateStore rateNow]
  | CallAPIRequests successful ms now rateNow =>
      [SAPILocked successful ms; SAPIWindowAdd now; SAPIRateStore rateNow]
  | CallError errorType => [SError errorType]
  end.

Definition call (w : World) (c : Call) : World :=
  match c with
  | CallCommands successful now rateNow =>
      lift (IncrementCommands successful now rateNow) w
  | CallAPIRequests successful ms now rateNow =>
      lift (IncrementAPIRequests successful ms now rateNow) w
  | CallError errorType => IncrementError errorType w
  end.

Definition calls (w : World) (cs : list Call) : World := fold_left call cs w.

End Registry.

Arguments Metrics F : clear implicits.
Arguments Summary F : clear implicits.
Arguments World F : clear implicits.
Arguments Package F : clear implicits.

(** ** Calls on the package *)

(** The exported functions that reach the shared registry, each with the
    clock readings it may take; [initNow] is the reading [Initialize] takes
    if the registry has to be built.  [PGetSummary] is
    [Get().GetSummary()]. *)
Inductive PackageCall : Type :=
| PInitialize (initNow : Time)
| PRecordCommand (successful : bool) (initNow now rateNow : Time)
| PRecordAPIRequest (successful : bool) (responseTimeMs : Z)
                    (initNow now rateNow : Time)
| PRecordError (err : option error) (initNow : Time)
| PGetSummary (initNow now : Time).

Definition init_clock (c : PackageCall) : Time :=
  match c with
  | PInitialize initNow => initNow
  | PRecordCommand _ initNow _ _ => initNow
  | PRecordAPIRequest _ _ initNow _ _ => initNow
  | PRecordError _ initNow => initNow
  | PGetSummary initNow _ => initNow
  end.

(** One call; [None] when it panics. *)
Definition package_call {F : Type} `{Float64 F} (fmt : Time -> string)
           (p : Package F) (c : PackageCall) : option (Package F) :=
  match c with
  | PInitialize initNow => Some (put (Initialize initNow p))
  | PRecordCommand successful initNow now rateNow =>
      Some (RecordCommand successful initNow now rateNow p)
  | PRecordAPIRequest successful responseTimeMs initNow now rateNow =>
      Some (RecordAPIRequest successful responseTimeMs initNow now rateNow p)
  | PRecordError err initNow => RecordError err initNow p
  | PGetSummary initNow now =>
      Some (put (snd (GetSummary fmt now (Get initNow p))))
  end.

(** Calls one after the other, as long as none panics. *)
Fixpoint package_calls {F : Type} `{Float64 F} (fmt : Time -> string)
         (p : Package F) (cs : list PackageCall) : option (Package F) :=
  match cs with
  | [] => Some p
  | c :: rest =>
      match package_call fmt p c with
      | Some p' => package_calls fmt p' rest
      | None => None
      end
  end.

(** ** Package [strings], as far as the bot uses it *)

Module Strings.

(** [strings.HasPrefix(s, prefix)] *)
Definition HasPrefix (s prefix : string) : bool := String.prefix prefix s.

(** [strings.TrimPrefix(s, prefix)]: [s[len(prefix):]] when [s] has the
    prefix, [s] otherwise. *)
Definition TrimPrefix (s prefix : string) : string :=
  if HasPrefix s prefix
  then substring (String.length prefix)
                 (String.length s - String.length prefix) s
  else s.

(** A byte below [utf8.RuneSelf]. *)
Definition is_ascii (c : ascii) : bool := (nat_of_ascii c <? 128)%nat.

Definition all_ascii (s : string) : bool :=
  forallb is_ascii (list_ascii_of_string s).

(** The table [asciiSpace]: tab, newline, vertical tab, form feed,
    carriage return and space. *)
Definition asciiSpace (c : ascii) : bool :=
  let n := nat_of_ascii c in
  ((9 <=? n) && (n <=? 13) || (n =? 32))%nat.

(** The ASCII loop of [strings.Fields]: [field] is the part of the current
    field read so far ([s[fieldStart:i]]); a space closes a field that has
    started, and the end of the string closes the last one. *)
Fixpoint fields_ascii (field : string) (s : string) : list string :=
  match s with
  | EmptyString => if String.eqb field "" then [] else [field]
  | String c rest =>
      if asciiSpace c
      then if String.eqb field "" then fields_ascii "" rest
           else field :: fields_ascii "" rest
      else fields_ascii (field ++ String c "") rest
  end.

(** The ASCII loop of [strings.ToLower]: ['A'..'Z'] move to ['a'..'z']. *)
Definition lower_ascii (c : ascii) : ascii :=
  let n := nat_of_ascii c in
  if ((65 <=? n) && (n <=? 90))%nat then ascii_of_nat (n + 32) else c.

Fixpoint map_ascii (f : ascii -> ascii) (s : string) : string :=
  match s with
  | EmptyString => EmptyString
  | String c rest => String (f c) (map_ascii f rest)
  end.

End Strings.

(** ** Package [discord] *)

(** The one field of [config.Config] that decides what the bot does. *)
Record Config : Type := mkConfig {
  CommandPrefix : string
}.

(** What the bot reads of a [discordgo.MessageCreate]. *)
Record MessageCreate : Type := mkMessageCreate {
  AuthorBot : bool;
  AuthorID : string;
  AuthorUsername : string;
  Content : string;
  ChannelID : string
}.

(** An embed handed to [ChannelMessageSendEmbed]: the channel, the title
    and the description (colour, fields, footer and timestamp are not
    kept). *)
Record Sent : Type := mkSent {
  toChannel : string;
  title : string;
  description : string
}.

(** What the world answers during one call of [messageCreate]:
    [sendFails] is the error [ChannelMessageSendEmbed] returns to the
    command handler ([None] for nil); the rest are the clock readings, in
    the order the call takes them.  The answer to the send of an error
    notice is only logged, and has no place here. *)
Record Env : Type := mkEnv {
  sendFails : option error;
  statsInit : Time;
  statsNow : Time;
  commandInit : Time;
  commandNow : Time;
  commandRate : Time;
  errorInit : Time
}.

Section Bot.

Context {F : Type} `{Float64 F}.

Variable FormatRFC3339 : Time -> string.

(** The paths of [strings.Fields] and [strings.ToLower] for a string with
    a byte of [utf8.RuneSelf] or more: [FieldsFunc(s, unicode.IsSpace)] and
    [Map(unicode.ToLower, s)], taken as given. *)
Variable FieldsFunc_IsSpace : string -> list string.
Variable Map_ToLower : string -> string.

(** [strings.Fields(s)] *)
Definition Fields (s : string) : list string :=
  if Strings.all_ascii s then Strings.fields_ascii "" s
  else FieldsFunc_IsSpace s.

(** [strings.ToLower(s)] *)
Definition ToLower (s : string) : string :=
  if Strings.all_ascii s then Strings.map_ascii Strings.lower_ascii s
  else Map_ToLower s.

(** The shared registry and the embeds sent so far. *)
Record BotState : Type := mkBotState {
  registry : Package F;
  outbox : list Sent
}.

(** [CommandHandler]: the error it returns and the state it leaves. *)
Definition CommandHandler : Type :=
  Env -> MessageCreate -> list string -> BotState -> option error * BotState.

Record Bot : Type := mkBot {
  config : Config;
  commandHandlers : gmap string CommandHandler
}.

(** [s.ChannelMessageSendEmbed(channelID, embed)], as far as the state
    goes. *)
Definition send (channelID embedTitle embedDescription : string)
           (st : BotState) : BotState :=
  {| registry := registry st;
     outbox := outbox st ++ [mkSent channelID embedTitle embedDescription] |}.

(** [b.handlePing] *)
Definition handlePing : CommandHandler :=
  fun env m _ st =>
    let st1 := send (ChannelID m) "Pong! 🏓" "Bot is online and responding!"
                    st in
    match sendFails env with
    | Some err =>
        (Some (ErrBot (NewDiscordError "failed to send ping response"
                                       (Some err))), st1)
    | None => (None, st1)
    end.

(** [b.handleHelp] *)
Definition handleHelp : CommandHandler :=
  fun env m _ st =>
    let st1 := send (ChannelID m) "Discord Bot Help"
                    "A generic Discord bot template built with Go!" st in
    match sendFails env with
    | Some err =>
        (Some (ErrBot (NewDiscordError "failed to send help message"
                                       (Some err))), st1)
    | None => (None, st1)
    end.

(** [b.handleStats]: [metrics.Get().GetSummary()] comes first; the embed
    built from the summary has no description. *)
Definition handleStats : CommandHandler :=
  fun env m _ st =>
    let '(summary, w) :=
      GetSummary FormatRFC3339 (statsNow env)
                 (Get (statsInit env) (registry st)) in
    let st1 := send (ChannelID m) "Bot Statistics" ""
                    {| registry := put w; outbox := outbox st |} in
    match sendFails env with
    | Some err =>
        (Some (ErrBot (NewDiscordError "failed to send stats message"
                                       (Some err))), st1)
    | None => (None, st1)
    end.

(** [b.registerCommands()] *)
Definition registerCommands (b : Bot) : Bot :=
  {| config := config b;
     commandHandlers :=
       <["stats"%string := handleStats]>
         (<["help"%string := handleHelp]>
            (<["ping"%string := handlePing]> (commandHandlers b))) |}.

(** [NewBot(cfg)] when [discordgo.New] succeeds. *)
Definition NewBot (cfg : Config) : Bot :=
  registerCommands {| config := cfg; commandHandlers := ∅ |}.

(** [b.sendErrorMessage(s, channelID, message)]: a failed send is logged
    and nothing else. *)
Definition sendErrorMessage (channelID message : string) (st : BotState)
  : BotState :=
  send channelID "Error" message st.

(** [b.messageCreate(s, m)].  The calls to the logger are left out: they
    change neither the registry nor what is sent.  [None] is a panic, which
    only [RecordError] can raise. *)
Definition messageCreate (b : Bot) (env : Env) (m : MessageCreate)
           (st : BotState) : option BotState :=
  if AuthorBot m then Some st
  else if negb (Strings.HasPrefix (Content m) (CommandPrefix (config b)))
  then Some st
  else
    let content := Strings.TrimPrefix (Content m) (CommandPrefix (config b)) in
    match Fields content with
    | [] => Some st
    | first :: args =>
        let command := ToLower first in
        match commandHandlers b !! command with
        | Some handler =>
            match handler env m args st with
            | (Some err, st1) =>
                let p1 := RecordCommand false (commandInit env)
                                        (commandNow env) (commandRate env)
                                        (registry st1) in
                match RecordError (Some err) (errorInit env) p1 with
                | Some p2 =>
                    Some (sendErrorMessage
                            (ChannelID m)
                            "Sorry, something went wrong processing your command."
                            {| registry := p2; outbox := outbox st1 |})
                | None => None
                end
            | (None, st1) =>
                Some {| registry := RecordCommand true (commandInit env)
                                                  (commandNow env)
                                                  (commandRate env)
                                                  (registry st1);
                        outbox := outbox st1 |}
            end
        | None =>
            Some (sendErrorMessage
                    (ChannelID m)
                    ("Unknown command: " ++ CommandPrefix (config b) ++ command
                     ++ ". Use " ++ CommandPrefix (config b)
                     ++ "help for available commands.")
                    st)
        end
    end.

(** The messages a bot receives, each with what the world answers, as long
    as no call panics. *)
Fixpoint deliver (b : Bot) (st : BotState)
         (ms : list (Env * MessageCreate)) : option BotState :=
  match ms with
  | [] => Some st
  | em :: rest =>
      match messageCreate b (fst em) (snd em) st with
      | Some st' => deliver b st' rest
      | None => None
      end
  end.

End Bot.

Arguments BotState F : clear implicits.
Arguments CommandHandler F : clear implicits.
Arguments Bot F : clear implicits.

(** ** Vocabulary of the statements *)

(** How many times a run passes through the critical section of
    [IncrementCommands] with the given outcome. *)
Definition commands_in (successful : bool) (tr : list Step) : Z :=
  Z.of_nat (length (List.filter
    (fun s => match s with
              | SCommandsLocked b => Bool.eqb b successful
              | _ => false
              end) tr)).

(** The same for [IncrementAPIRequests]. *)
Definition requests_in (successful : bool) (tr : list Step) : Z :=
  Z.of_nat (length (List.filter
    (fun s => match s with
              | SAPILocked b _ => Bool.eqb b successful
              | _ => false
              end) tr)).

(** What one step adds to those numbers. *)
Definition command_delta (successful : bool) (s : Step) : Z :=
  match s with
  | SCommandsLocked b => if Bool.eqb b successful then 1 else 0
  | _ => 0
  end.

Definition request_delta (successful : bool) (s : Step) : Z :=
  match s with
  | SAPILocked b _ => if Bool.eqb b successful then 1 else 0
  | _ => 0
  end.

(** The counters of one group hold (the [int64] images of) [ok] successes
    and [ko] failures. *)
Definition counts (ok ko : Z) (total successful failed : Z) : Prop :=
  successful = Int64.wrap ok /\ failed = Int64.wrap ko /\
  total = Int64.wrap (ok + ko).

Definition command_counts {F} (ok ko : Z) (m : Metrics F) : Prop :=
  counts ok ko (CommandsTotal m) (CommandsSuccessful m) (CommandsFailed m).

Definition request_counts {F} (ok ko : Z) (m : Metrics F) : Prop :=
  counts ok ko (APIRequestsTotal m) (APIRequestsSuccessful m)
         (APIRequestsFailed m).

(** The events of a list that lie after a cutoff. *)
Definition newer (cutoff : Time) (l : list Time) : list Time :=
  List.filter (fun event => After event cutoff) l.

(** What [errors.As] is documented to do, as a relation on the tree of an
    error: the tree is the error itself followed by the trees of what
    [Unwrap] returns, and it is searched depth first, in pre-order.

    [Misses err]: nothing in the tree of [err] matches a [**BotError]
    target. *)
Inductive Misses : error -> Prop :=
| Misses_leaf (msg : string) :
    Misses (ErrOther msg None NoUnwrap)
| Misses_nil (msg : string) :
    Misses (ErrOther msg None (UnwrapError None))
| Misses_inner (msg : string) (inner : error) :
    Misses inner -> Misses (ErrOther msg None (UnwrapError (Some inner)))
| Misses_all (msg : string) (errs : list (option error)) :
    (forall e, In (Some e) errs -> Misses e) ->
    Misses (ErrOther msg None (UnwrapErrors errs)).

(** [Finds err botErr]: the first match in the tree of [err] leaves the
    target at [botErr]; [None] is a nil pointer. *)
Inductive Finds : error -> option (BotError error) -> Prop :=
| Finds_here (e : BotError error) :
    Finds (ErrBot e) (Some e)
| Finds_nil_pointer :
    Finds ErrNilBot None
| Finds_As_method (msg : string) (target : option (BotError error))
                  (unwrap : Unwrapped error) :
    Finds (ErrOther msg (Some target) unwrap) target
| Finds_inner (msg : string) (inner : error)
              (botErr : option (BotError error)) :
    Finds inner botErr ->
    Finds (ErrOther msg None (UnwrapError (Some inner))) botErr
| Finds_among (msg : string) (before after : list (option error))
              (e : error) (botErr : option (BotError error)) :
    (forall e', In (Some e') before -> Misses e') ->
    Finds e botErr ->
    Finds (ErrOther msg None (UnwrapErrors (before ++ Some e :: after)))
          botErr.

(** The tag an error carries: the category of the [*BotError] that
    [errors.As] finds in it. *)
Definition Carries (err : error) (t : ErrorType) : Prop :=
  exists e : BotError error, Finds err (Some e) /\ Type_ e = t.

(** The error map of a registry is a map in memory. *)
Definition allocated {F} (w : World F) : Prop :=
  is_Some (maps w !! ErrorsByType (self w)).

(** The entry of a category in the error map of a registry, and the count
    it stands for (zero when absent). *)
Definition error_entry {F} (w : World F) (c : ErrorType) : option Z :=
  map_at (maps w) (ErrorsByType (self w)) !! c.

Definition error_count {F} (w : World F) (c : ErrorType) : Z :=
  default 0 (error_entry w c).

(** A summary whose second critical section runs after the steps [later]
    of other goroutines, the first one having copied the error map in [w]. *)
Definition snapshot_during {F} `{Float64 F} (fmt : Time -> string)
           (now : Time) (w : World F) (later : list Step) : Summary F :=
  let '(errorsByType, w1) := copy_errors w in
  read_summary fmt now errorsByType (self (run w1 later)).

(** A [float64] within [[0, 100]]: the two comparisons of binary64 hold
    (neither does for a NaN). *)
Definition percentage (x : float) : Prop :=
  (0 <=? x)%float = true /\ (x <=? 100)%float = true.

(** What a summary must satisfy: both success rates are percentages, and
    neither group counts more outcomes than calls. *)
Definition consistent (s : Summary float) : Prop :=
  percentage (sCommandSuccessRate s) /\
  percentage (sAPISuccessRate s) /\
  sCommandsSuccessful s + sCommandsFailed s <= sCommandsTotal s /\
  sAPIRequestsSuccessful s + sAPIRequestsFailed s <= sAPIRequestsTotal s.

(** *** Rounding in binary64

    The vocabulary for what [SpecFloat] computes when it rounds.  A
    position [T / D] between two integers: where the remainder lies with
    respect to the half. *)
Definition loc_of (R D : Z) : location :=
  if R =? 0 then loc_Exact else loc_Inexact (2 * R ?= D).

(** The integer nearest to [T / D], the even one of two equally near. *)
Definition RNE (T D : Z) : Z :=
  round_nearest_even (T / D) (loc_of (T mod D) D).

(** A shift record stands for the position [T / D]. *)
Definition Rep (mrs : shr_record) (T D : Z) : Prop :=
  0 < D /\ 0 <= T /\ shr_m mrs = T / D /\
  loc_of_shr_record mrs = loc_of (T mod D) D.

(** The number with mantissa [m1] (of 53 bits, or [2^53] after a carry)
    and exponent [e1], as a binary64. *)
Definition rounded (m1 e1 : Z) : spec_float :=
  if m1 =? 0 then S754_zero false
  else if m1 <? 2 ^ 53
       then (if e1 <=? 971 then S754_finite false (Z.to_pos m1) e1
             else S754_infinity false)
       else (if e1 + 1 <=? 971
             then S754_finite false (Z.to_pos (2 ^ 52)) (e1 + 1)
             else S754_infinity false).

(** The value of [float64(t)] for a positive [int64]: [t] rounded to 53
    significant bits. *)
Definition nearest_int (t : Z) : Z :=
  let n := Z.max (Zdigits2 t - 53) 0 in RNE t (2 ^ n) * 2 ^ n.

(** The mantissa of [100.0], whose exponent is [-46]. *)
Definition m100 : positive := 7036874417766400.

(** Fewer critical sections than an [int64] counter can count. *)
Definition countable (tr : list Step) : Prop :=
  commands_in true tr + commands_in false tr <= Int64.max_int /\
  requests_in true tr + requests_in false tr <= Int64.max_int.

(** The response times a run accumulates, in order, and their sum. *)
Definition response_times (tr : list Step) : list Z :=
  flat_map (fun s => match s with
                     | SAPILocked _ responseTimeMs => [responseTimeMs]
                     | _ => []
                     end) tr.

Definition total_response_time (tr : list Step) : Z :=
  fold_right Z.add 0 (response_times tr).

(** The timestamps a run writes to the command window and to the API
    window, in the order of the writes. *)
Definition command_stamps (tr : list Step) : list Time :=
  flat_map (fun s => match s with
                     | SCommandsWindowAdd now => [now]
                     | _ => []
                     end) tr.

Definition request_stamps (tr : list Step) : list Time :=
  flat_map (fun s => match s with
                     | SAPIWindowAdd now => [now]
                     | _ => []
                     end) tr.

(** What the construction of the registry fixes: the package holds a
    registry with this start time, this error map, and windows of 60
    seconds. *)
Definition built_as {F} (start : Time) (l : loc) (p : Package F) : Prop :=
  exists m, globalMetrics p = Some m /\
            BotStartTime m = start /\ ErrorsByType m = l /\
            window (commandWindow m) = 60000000000 /\
            window (apiWindow m) = 60000000000.

(** What [messageCreate] reads in a message: nothing, for a message from a
    bot, without the prefix, or with only blanks after it; otherwise the
    first field after the prefix, in lower case. *)
Definition command_of (uf : string -> list string) (ul : string -> string)
           (cfg : Config) (m : MessageCreate) : option string :=
  if AuthorBot m then None
  else if negb (Strings.HasPrefix (Content m) (CommandPrefix cfg)) then None
  else match Fields uf (Strings.TrimPrefix (Content m) (CommandPrefix cfg)) with
       | [] => None
       | first :: _ => Some (ToLower ul first)
       end.

(** The commands [registerCommands] registers. *)
Definition registered (command : string) : bool :=
  (String.eqb command "ping" || String.eqb command "help"
   || String.eqb command "stats")%bool.

(** A message that runs a handler, one whose handler returns an error
    (its send failed), and one that gets any reply. *)
Definition runs_handler uf ul cfg (em : Env * MessageCreate) : bool :=
  match command_of uf ul cfg (snd em) with
  | Some command => registered command
  | None => false
  end.

Definition handler_fails uf ul cfg (em : Env * MessageCreate) : bool :=
  (runs_handler uf ul cfg em &&
   match sendFails (fst em) with Some _ => true | None => false end)%bool.

Definition gets_reply uf ul cfg (em : Env * MessageCreate) : bool :=
  match command_of uf ul cfg (snd em) with Some _ => true | None => false end.

(** Counting the elements of a list that pass a test. *)
Definition b2z (b : bool) : Z := if b then 1 else 0.

Definition how_many {A} (f : A -> bool) (l : list A) : Z :=
  Z.of_nat (length (List.filter f l)).

(** The registry of a running bot: [ok] commands succeeded and [ko] failed,
    no API request was recorded, and the error map counts [e] errors, all
    under [ErrorTypeDiscord]. *)
Definition bot_inv {F} (start : Time) (ok ko e : Z) (p : Package F) : Prop :=
  exists m, globalMetrics p = Some m /\ command_counts ok ko m /\
    APIRequestsTotal m = 0 /\ APIResponseCount m = 0 /\ BotStartTime m = start /\
    allocated {| maps := pmaps p; self := m |} /\
    error_count {| maps := pmaps p; self := m |} ErrorTypeDiscord = Int64.wrap e /\
    forall c, c <> ErrorTypeDiscord ->
              error_entry {| maps := pmaps p; self := m |} c = None.


(** What the three handlers have in common: one embed is handed over, the
    error returned is a discord error around the error of the send, and the
    registry keeps its counts. *)
Definition handler_ok {F} (h : CommandHandler F) : Prop :=
  forall env m args st, exists msg sent reg,
    h env m args st =
    (match sendFails env with
     | Some err => Some (ErrBot (NewDiscordError msg (Some err)))
     | None => None
     end, {| registry := reg; outbox := outbox st ++ [sent] |}) /\
    forall start ok ko e,
      bot_inv start ok ko e (registry st) -> bot_inv start ok ko e reg.


(** Strings made of ASCII blanks, and of ASCII characters that are not
    blanks. *)
Definition blank (s : string) : Prop :=
  Forall (fun c => Strings.asciiSpace c = true) (list_ascii_of_string s).
Definition solid (s : string) : Prop :=
  Forall (fun c => Strings.is_ascii c = true /\ Strings.asciiSpace c = false)
         (list_ascii_of_string s).


(** ** Machine integers: facts *)

Module Int64Facts.

Import Int64.

Lemma wrap_in_range (z : Z) : in_range z -> wrap z = z.
Proof.
  unfold in_range, min_int, max_int, wrap. intros Hz.
  rewrite Z.mod_small by lia. lia.
Qed.

Lemma wrap_range (z : Z) : in_range (wrap z).
Proof.
  unfold in_range, min_int, max_int, wrap.
  pose proof (Z.mod_pos_bound (z + 2 ^ 63) (2 ^ 64) ltac:(lia)). lia.
Qed.

Lemma wrap_add_l (a b : Z) : wrap (wrap a + b) = wrap (a + b).
Proof.
  unfold wrap. f_equal.
  replace ((a + 2 ^ 63) mod 2 ^ 64 - 2 ^ 63 + b + 2 ^ 63)
    with ((a + 2 ^ 63) mod 2 ^ 64 + b) by lia.
  rewrite Zplus_mod_idemp_l. f_equal. lia.
Qed.

Lemma wrap_add_r (a b : Z) : wrap (a + wrap b) = wrap (a + b).
Proof. rewrite (Z.add_comm a), wrap_add_l. f_equal. lia. Qed.

Lemma incr_wrap (a : Z) : incr (wrap a) = wrap (a + 1).
Proof. apply wrap_add_l. Qed.

Lemma add_wrap (a b : Z) : add (wrap a) (wrap b) = wrap (a + b).
Proof. unfold add. now rewrite wrap_add_l, wrap_add_r. Qed.

End Int64Facts.

(** ** The loops of the window *)

Lemma fold_keep_valid (cutoff : Time) (l acc : list Time) :
  fold_left (keep_valid cutoff) l acc = acc ++ newer cutoff l.
Proof.
  revert acc. induction l as [|e l IH]; intros acc; simpl.
  - now rewrite app_nil_r.
  - rewrite IH. unfold keep_valid.
    destruct (After e cutoff); simpl; [now rewrite <- app_assoc | reflexivity].
Qed.

Lemma fold_count_valid (cutoff : Time) (l : list Time) (n : Z) :
  fold_left (count_valid cutoff) l n = n + Z.of_nat (length (newer cutoff l)).
Proof.
  revert n. induction l as [|e l IH]; intros n; simpl; [lia|].
  rewrite IH. unfold count_valid.
  destruct (After e cutoff); simpl length; lia.
Qed.

(** [Add] keeps, in order, the old events and the new one that lie after
    the cutoff taken from the new timestamp. *)
Lemma Add_events (timestamp : Time) (rw : RateWindow) :
  events (Add timestamp rw) =
  newer (timestamp + Int64.neg (window rw)) (events rw ++ [timestamp]).
Proof. unfold Add; simpl. now rewrite fold_keep_valid. Qed.

Lemma Add_window (timestamp : Time) (rw : RateWindow) :
  window (Add timestamp rw) = window rw.
Proof. reflexivity. Qed.

(** After a write, every retained event is less than a window old. *)
Lemma Add_retained_recent (timestamp : Time) (rw : RateWindow) (t : Time) :
  Int64.min_int < window rw <= Int64.max_int ->
  In t (events (Add timestamp rw)) -> timestamp - t < window rw.
Proof.
  intros Hw. rewrite Add_events. unfold newer.
  rewrite filter_In. intros [_ Hafter].
  unfold After in Hafter. apply Z.ltb_lt in Hafter.
  unfold Int64.neg in Hafter.
  rewrite Int64Facts.wrap_in_range in Hafter
    by (unfold Int64.in_range, Int64.min_int, Int64.max_int in *; lia).
  lia.
Qed.

(** ** Counters along a run *)

Section Runs.

Context {F : Type} `{Float64 F}.

Lemma commands_in_cons (b : bool) (s : Step) (tr : list Step) :
  commands_in b (s :: tr) = command_delta b s + commands_in b tr.
Proof.
  unfold commands_in, command_delta. simpl.
  destruct s; try lia. destruct (Bool.eqb successful b); simpl length; lia.
Qed.

Lemma requests_in_cons (b : bool) (s : Step) (tr : list Step) :
  requests_in b (s :: tr) = request_delta b s + requests_in b tr.
Proof.
  unfold requests_in, request_delta. simpl.
  destruct s; try lia. destruct (Bool.eqb successful b); simpl length; lia.
Qed.

Lemma commands_in_nonneg (b : bool) (tr : list Step) : 0 <= commands_in b tr.
Proof. unfold commands_in. lia. Qed.

Lemma requests_in_nonneg (b : bool) (tr : list Step) : 0 <= requests_in b tr.
Proof. unfold requests_in. lia. Qed.

(** One step moves the command counters by what it records. *)
Lemma exec_command_counts (ok ko : Z) (w : World F) (s : Step) :
  command_counts ok ko (self w) ->
  command_counts (ok + command_delta true s) (ko + command_delta false s)
                 (self (exec w s)).
Proof.
  unfold command_counts, counts. intros (Hs & Hf & Ht).
  destruct s as [[|]| | |? ?| | |]; cbn -[Int64.wrap Z.add];
    rewrite ?Hs, ?Hf, ?Ht, ?Int64Facts.incr_wrap, ?Z.add_0_r;
    repeat split; try reflexivity; f_equal; lia.
Qed.

Lemma exec_request_counts (ok ko : Z) (w : World F) (s : Step) :
  request_counts ok ko (self w) ->
  request_counts (ok + request_delta true s) (ko + request_delta false s)
                 (self (exec w s)).
Proof.
  unfold request_counts, counts. intros (Hs & Hf & Ht).
  destruct s as [?| | |[|] ?| | |]; cbn -[Int64.wrap Z.add];
    rewrite ?Hs, ?Hf, ?Ht, ?Int64Facts.incr_wrap, ?Z.add_0_r;
    repeat split; try reflexivity; f_equal; lia.
Qed.

Lemma run_command_counts (tr : list Step) :
  forall (ok ko : Z) (w : World F),
    command_counts ok ko (self w) ->
    command_counts (ok + commands_in true tr) (ko + commands_in false tr)
                   (self (run w tr)).
Proof.
  induction tr as [|s tr IH]; intros ok ko w Hw.
  - unfold commands_in; simpl. now rewrite !Z.add_0_r.
  - simpl. apply (exec_command_counts _ _ _ s), IH in Hw.
    rewrite !commands_in_cons. now rewrite !Z.add_assoc.
Qed.

Lemma run_request_counts (tr : list Step) :
  forall (ok ko : Z) (w : World F),
    request_counts ok ko (self w) ->
    request_counts (ok + requests_in true tr) (ko + requests_in false tr)
                   (self (run w tr)).
Proof.
  induction tr as [|s tr IH]; intros ok ko w Hw.
  - unfold requests_in; simpl. now rewrite !Z.add_0_r.
  - simpl. apply (exec_request_counts _ _ _ s), IH in Hw.
    rewrite !requests_in_cons. now rewrite !Z.add_assoc.
Qed.

Lemma Initialize_command_counts (now : Time) (st : MapStore) :
  command_counts 0 0 (self (Initialize_world now st)).
Proof. repeat split. Qed.

Lemma Initialize_request_counts (now : Time) (st : MapStore) :
  request_counts 0 0 (self (Initialize_world now st)).
Proof. repeat split. Qed.

(** A sequence of calls is the run of their steps, call after call. *)
Lemma calls_run (cs : list Call) :
  forall w : World F, calls w cs = run w (flat_map steps_of cs).
Proof.
  induction cs as [|c cs IH]; intros w; [reflexivity|].
  change (calls w (c :: cs)) with (calls (call w c) cs).
  change (flat_map steps_of (c :: cs))
    with (steps_of c ++ flat_map steps_of cs).
  rewrite IH. unfold run. rewrite fold_left_app.
  f_equal. destruct c; reflexivity.
Qed.

End Runs.

(** ** The command counters *)

(** C1. In every state a run of the registry passes through, starting from
    the registry [Initialize] builds, [CommandsTotal] equals
    [CommandsSuccessful + CommandsFailed]: as the Go expression on [int64]
    without condition, and as integers as long as the counters have not
    wrapped.  A sequence of [IncrementCommands] calls is such a run
    ([calls_run]), whatever the arguments, and so is each of its prefixes,
    also those that end inside a call or between the calls of other
    goroutines. *)
Theorem commands_total_is_sum {F : Type} `{Float64 F}
        (now : Time) (st : MapStore) (tr : list Step) :
  let m := self (run (Initialize_world now st) tr) in
  CommandsTotal m = Int64.add (CommandsSuccessful m) (CommandsFailed m) /\
  (commands_in true tr + commands_in false tr <= Int64.max_int ->
   CommandsTotal m = CommandsSuccessful m + CommandsFailed m).
Proof.
  intros m.
  destruct (run_command_counts tr 0 0 _ (Initialize_command_counts now st))
    as (Hs & Hf & Ht).
  fold m in Hs, Hf, Ht. rewrite Hs, Hf, Ht. split.
  - now rewrite Int64Facts.add_wrap.
  - intros Hle.
    pose proof (commands_in_nonneg true tr).
    pose proof (commands_in_nonneg false tr).
    rewrite !Int64Facts.wrap_in_range; [reflexivity | | |];
      unfold Int64.in_range, Int64.min_int, Int64.max_int in *; lia.
Qed.

Lemma commands_total_is_sum_witness :
  let m := self (calls (Initialize_world (F:=float) 0 ∅)
                       [CallCommands true 1 2; CallCommands false 3 4;
                        CallCommands true 5 6]) in
  CommandsTotal m = 3 /\ CommandsTotal m = CommandsSuccessful m + CommandsFailed m.
Proof.
  rewrite calls_run. split; [reflexivity|].
  apply (commands_total_is_sum (F:=float) 0 ∅). vm_compute. discriminate.
Defined.

(** ** Summaries *)

Section SummaryFacts.

Context {F : Type} `{Float64 F}.

(** The counters and windows follow the registry value alone, not the
    maps. *)
Lemma exec_self (w w' : World F) (s : Step) :
  self w = self w' -> self (exec w s) = self (exec w' s).
Proof. intros Heq. destruct s; simpl; now rewrite Heq. Qed.

Lemma run_self (tr : list Step) :
  forall w w' : World F, self w = self w' -> self (run w tr) = self (run w' tr).
Proof.
  induction tr as [|s tr IH]; intros w w' Heq; [exact Heq|].
  simpl. apply IH, exec_self, Heq.
Qed.

Lemma copy_errors_self (w : World F) : self (snd (copy_errors w)) = self w.
Proof. reflexivity. Qed.

Lemma GetSummary_snapshot (fmt : Time -> string) (now : Time) (w : World F) :
  fst (GetSummary fmt now w) = snapshot_during fmt now w [].
Proof. reflexivity. Qed.

Lemma commands_in_app (b : bool) (tr l : list Step) :
  commands_in b (tr ++ l) = commands_in b tr + commands_in b l.
Proof.
  unfold commands_in. rewrite List.filter_app, length_app. lia.
Qed.

Lemma requests_in_app (b : bool) (tr l : list Step) :
  requests_in b (tr ++ l) = requests_in b tr + requests_in b l.
Proof.
  unfold requests_in. rewrite List.filter_app, length_app. lia.
Qed.

Lemma countable_app_l (tr l : list Step) : countable (tr ++ l) -> countable tr.
Proof.
  unfold countable. rewrite !commands_in_app, !requests_in_app.
  pose proof (commands_in_nonneg true l).
  pose proof (commands_in_nonneg false l).
  pose proof (requests_in_nonneg true l).
  pose proof (requests_in_nonneg false l). lia.
Qed.

End SummaryFacts.

(** ** Binary64: what rounding does to a success rate

    [float64(successful) / float64(total) * 100.0] rounds four times.  The
    facts below follow [SpecFloat]'s rounding ([binary_round_aux]) through
    the two conversions, the division and the multiplication, for
    [0 <= successful <= total < 2^63]. *)

(** The number of binary digits of a positive number. *)
Lemma digits2_pos_bounds (p : positive) :
  2 ^ (Z.pos (digits2_pos p) - 1) <= Z.pos p < 2 ^ Z.pos (digits2_pos p).
Proof.
  induction p as [p IH | p IH |]; simpl digits2_pos.
  - rewrite Pos2Z.inj_succ.
    replace (Z.succ (Z.pos (digits2_pos p)) - 1) with (Z.succ (Z.pos (digits2_pos p) - 1)) by lia.
    rewrite !Z.pow_succ_r by lia. lia.
  - rewrite Pos2Z.inj_succ.
    replace (Z.succ (Z.pos (digits2_pos p)) - 1) with (Z.succ (Z.pos (digits2_pos p) - 1)) by lia.
    rewrite !Z.pow_succ_r by lia. lia.
  - simpl. lia.
Qed.

Lemma digits2_pos_unique (p : positive) (d : Z) :
  2 ^ (d - 1) <= Z.pos p < 2 ^ d -> Z.pos (digits2_pos p) = d.
Proof.
  intros [Hlo Hhi].
  pose proof (digits2_pos_bounds p) as [Hlo' Hhi'].
  assert (0 < d).
  { destruct (Z.ltb_spec 0 d); [assumption|].
    destruct (Z.eq_dec d 0) as [->|]; [simpl in Hhi; lia|].
    rewrite Z.pow_neg_r in Hhi by lia. lia. }
  destruct (Z.lt_trichotomy (Z.pos (digits2_pos p)) d) as [Hlt | [Heq | Hgt]];
    [exfalso | assumption | exfalso].
  - assert (2 ^ Z.pos (digits2_pos p) <= 2 ^ (d - 1))
      by (apply Z.pow_le_mono_r; lia). lia.
  - assert (2 ^ d <= 2 ^ (Z.pos (digits2_pos p) - 1))
      by (apply Z.pow_le_mono_r; lia). lia.
Qed.

Lemma shr_record_of_loc_m (m : Z) (l : location) :
  shr_m (shr_record_of_loc m l) = m.
Proof. destruct l as [|[]]; reflexivity. Qed.

Lemma shr_record_of_loc_loc (m : Z) (l : location) :
  loc_of_shr_record (shr_record_of_loc m l) = l.
Proof. destruct l as [|[]]; reflexivity. Qed.

Lemma Rep_of_loc (T D : Z) :
  0 < D -> 0 <= T ->
  Rep (shr_record_of_loc (T / D) (loc_of (T mod D) D)) T D.
Proof.
  intros HD HT. unfold Rep.
  rewrite shr_record_of_loc_m, shr_record_of_loc_loc. auto.
Qed.

Lemma div_mod_double (T D k b : Z) :
  0 < D -> 0 <= b < 2 -> T / D = 2 * k + b ->
  T / (2 * D) = k /\ T mod (2 * D) = b * D + T mod D.
Proof.
  intros HD Hb Hq.
  pose proof (Z.div_mod T D ltac:(lia)) as Hdm.
  pose proof (Z.mod_pos_bound T D HD) as Hr.
  rewrite Hq in Hdm.
  assert (HT : T = 2 * D * k + (b * D + T mod D)) by nia.
  split.
  - symmetry. apply (Z.div_unique T (2 * D) k (b * D + T mod D)); [nia | exact HT].
  - symmetry. apply (Z.mod_unique T (2 * D) k (b * D + T mod D)); [nia | exact HT].
Qed.

Lemma loc_of_shr_record_cases (m : Z) (r s : bool) (R D : Z) :
  0 <= R < D ->
  loc_of_shr_record {| shr_m := m; shr_r := r; shr_s := s |} = loc_of R D ->
  (r || s = false /\ R = 0) \/ (r || s = true /\ 0 < R).
Proof.
  intros HR. unfold loc_of.
  destruct (Z.eqb_spec R 0) as [-> | Hne]; destruct r, s; simpl;
    try discriminate; intros _; [left | right | right | right]; split;
    try reflexivity; lia.
Qed.

(** One shift to the right halves the unit and keeps the position. *)
Lemma shr_1_Rep (mrs : shr_record) (T D : Z) :
  Rep mrs T D -> Rep (shr_1 mrs) T (2 * D).
Proof.
  intros (HD & HT & Hm & Hl).
  destruct mrs as [m r s]. simpl in Hm.
  pose proof (Z.mod_pos_bound T D HD) as HR.
  pose proof (Z.div_pos T D HT HD) as Hq.
  destruct (loc_of_shr_record_cases m r s _ _ HR Hl) as [[Hrs HR0] | [Hrs HRp]].
  - (* exact so far *)
    assert (Hcase : forall k b, 0 <= b < 2 -> m = 2 * k + b ->
              T / (2 * D) = k /\ T mod (2 * D) = b * D).
    { intros k b Hb Hk. rewrite Hm in Hk.
      destruct (div_mod_double T D k b HD Hb Hk) as [? ?]. split; [assumption | lia]. }
    unfold Rep. split; [lia|]. split; [assumption|].
    destruct m as [| [p | p |] | p]; try lia; unfold shr_1; rewrite Hrs; simpl.
    + destruct (Hcase 0 0) as [-> ->]; [lia | lia |]. split; reflexivity.
    + destruct (Hcase (Z.pos p) 1) as [-> ->]; [lia | lia |].
      split; [reflexivity|]. unfold loc_of.
      destruct (Z.eqb_spec (1 * D) 0); [lia|].
      replace (2 * (1 * D) ?= 2 * D) with Eq; [reflexivity|].
      symmetry. apply Z.compare_eq_iff. lia.
    + destruct (Hcase (Z.pos p) 0) as [-> ->]; [lia | lia |]. split; reflexivity.
    + destruct (Hcase 0 1) as [-> ->]; [lia | lia |].
      split; [reflexivity|]. unfold loc_of.
      destruct (Z.eqb_spec (1 * D) 0); [lia|].
      replace (2 * (1 * D) ?= 2 * D) with Eq; [reflexivity|].
      symmetry. apply Z.compare_eq_iff. lia.
  - (* already inexact *)
    assert (Hcase : forall k b, 0 <= b < 2 -> m = 2 * k + b ->
              T / (2 * D) = k /\ T mod (2 * D) = b * D + T mod D).
    { intros k b Hb Hk. rewrite Hm in Hk.
      exact (div_mod_double T D k b HD Hb Hk). }
    unfold Rep. split; [lia|]. split; [assumption|].
    destruct m as [| [p | p |] | p]; try lia; unfold shr_1; rewrite Hrs; simpl.
    + destruct (Hcase 0 0) as [-> ->]; [lia | lia |].
      split; [reflexivity|]. unfold loc_of.
      destruct (Z.eqb_spec (0 * D + T mod D) 0); [lia|].
      replace (2 * (0 * D + T mod D) ?= 2 * D) with Lt; [reflexivity|].
      symmetry. apply Z.compare_lt_iff. lia.
    + destruct (Hcase (Z.pos p) 1) as [-> ->]; [lia | lia |].
      split; [reflexivity|]. unfold loc_of.
      destruct (Z.eqb_spec (1 * D + T mod D) 0); [lia|].
      replace (2 * (1 * D + T mod D) ?= 2 * D) with Gt; [reflexivity|].
      symmetry. apply Z.compare_gt_iff. lia.
    + destruct (Hcase (Z.pos p) 0) as [-> ->]; [lia | lia |].
      split; [reflexivity|]. unfold loc_of.
      destruct (Z.eqb_spec (0 * D + T mod D) 0); [lia|].
      replace (2 * (0 * D + T mod D) ?= 2 * D) with Lt; [reflexivity|].
      symmetry. apply Z.compare_lt_iff. lia.
    + destruct (Hcase 0 1) as [-> ->]; [lia | lia |].
      split; [reflexivity|]. unfold loc_of.
      destruct (Z.eqb_spec (1 * D + T mod D) 0); [lia|].
      replace (2 * (1 * D + T mod D) ?= 2 * D) with Gt; [reflexivity|].
      symmetry. apply Z.compare_gt_iff. lia.
Qed.

Lemma iter_pos_shr_1_Rep (p : positive) :
  forall (mrs : shr_record) (T D : Z),
    Rep mrs T D -> Rep (SpecFloat.iter_pos shr_1 p mrs) T (D * 2 ^ Z.pos p).
Proof.
  induction p as [p IH | p IH |]; intros mrs T D HR; simpl SpecFloat.iter_pos.
  - replace (D * 2 ^ Z.pos p~1) with (2 * D * 2 ^ Z.pos p * 2 ^ Z.pos p).
    + apply IH, IH, shr_1_Rep, HR.
    + assert (E : 2 ^ Z.pos p~1 = 2 * (2 ^ Z.pos p * 2 ^ Z.pos p)).
      { rewrite <- Z.pow_add_r, <- Z.pow_succ_r by lia. f_equal. lia. }
      rewrite E. ring.
  - replace (D * 2 ^ Z.pos p~0) with (D * 2 ^ Z.pos p * 2 ^ Z.pos p).
    + apply IH, IH, HR.
    + assert (E : 2 ^ Z.pos p~0 = 2 ^ Z.pos p * 2 ^ Z.pos p).
      { rewrite <- Z.pow_add_r by lia. f_equal. lia. }
      rewrite E. ring.
  - replace (D * 2 ^ 1) with (2 * D) by (simpl; lia). apply shr_1_Rep, HR.
Qed.

(** [n] shifts divide by [2^n], rounding down, with the location of the
    remainder. *)
Lemma shr_Rep (mrs : shr_record) (e n T D : Z) :
  Rep mrs T D -> 0 <= n ->
  exists mrs', shr mrs e n = (mrs', e + n) /\ Rep mrs' T (D * 2 ^ n).
Proof.
  intros HR Hn. destruct n as [| p | p]; [| | lia].
  - exists mrs. split; [simpl; f_equal; lia|].
    replace (D * 2 ^ 0) with D by (simpl; lia). exact HR.
  - exists (SpecFloat.iter_pos shr_1 p mrs). split; [reflexivity|].
    apply iter_pos_shr_1_Rep, HR.
Qed.

Lemma fexp_eq (x : Z) : fexp prec emax x = Z.max (x - 53) (-1074).
Proof. reflexivity. Qed.

Lemma Zdigits2_bounds (m : Z) :
  0 <= m ->
  0 <= Zdigits2 m /\ m < 2 ^ Zdigits2 m /\ (0 < m -> 2 ^ (Zdigits2 m - 1) <= m).
Proof.
  intros Hm. destruct m as [| p | p]; [simpl; lia | | lia].
  pose proof (digits2_pos_bounds p). simpl Zdigits2. lia.
Qed.

Lemma shr_nonpos (mrs : shr_record) (e n : Z) :
  n <= 0 -> shr mrs e n = (mrs, e).
Proof. destruct n; [reflexivity | lia | reflexivity]. Qed.

(** Rounding to the nearest integer: below the half, at the half, above. *)
Lemma RNE_cases (T D : Z) :
  0 < D ->
  (2 * (T mod D) < D /\ RNE T D = T / D) \/
  (2 * (T mod D) = D /\ RNE T D = if Z.even (T / D) then T / D else T / D + 1) \/
  (D < 2 * (T mod D) /\ RNE T D = T / D + 1).
Proof.
  intros HD. unfold RNE, loc_of.
  pose proof (Z.mod_pos_bound T D HD).
  destruct (Z.eqb_spec (T mod D) 0) as [E | E].
  - left. split; [lia | reflexivity].
  - destruct (Z.compare_spec (2 * (T mod D)) D); simpl; auto.
Qed.

Lemma RNE_floor (T D : Z) : 0 < D -> T / D <= RNE T D <= T / D + 1.
Proof.
  intros HD.
  destruct (RNE_cases T D HD) as [[_ ->] | [[_ ->] | [_ ->]]]; try lia.
  destruct (Z.even (T / D)); lia.
Qed.

Lemma RNE_exact (N D : Z) : 0 < D -> RNE (N * D) D = N.
Proof.
  intros HD. unfold RNE, loc_of.
  rewrite Z.mod_mul, Z.div_mul by lia. reflexivity.
Qed.

Lemma RNE_mono (T1 T2 D : Z) : 0 < D -> T1 <= T2 -> RNE T1 D <= RNE T2 D.
Proof.
  intros HD HT.
  pose proof (Z.div_le_mono T1 T2 D HD HT) as Hq.
  pose proof (Z.div_mod T1 D ltac:(lia)) as E1.
  pose proof (Z.div_mod T2 D ltac:(lia)) as E2.
  pose proof (Z.mod_pos_bound T1 D HD).
  pose proof (Z.mod_pos_bound T2 D HD).
  pose proof (RNE_floor T1 D HD). pose proof (RNE_floor T2 D HD).
  destruct (Z.eq_dec (T1 / D) (T2 / D)) as [Eq | Ne]; [| lia].
  assert (T1 mod D <= T2 mod D) by (rewrite Eq in E1; nia).
  destruct (RNE_cases T1 D HD) as [[? ->] | [[? ->] | [? ->]]];
    destruct (RNE_cases T2 D HD) as [[? ->] | [[? ->] | [? ->]]];
    rewrite ?Eq; try lia; destruct (Z.even (T2 / D)); lia.
Qed.

Lemma RNE_le (T D N : Z) : 0 < D -> T <= N * D -> RNE T D <= N.
Proof.
  intros HD HT. rewrite <- (RNE_exact N D HD). now apply RNE_mono.
Qed.

Lemma RNE_ge (T D N : Z) : 0 < D -> N * D <= T -> N <= RNE T D.
Proof.
  intros HD HT. rewrite <- (RNE_exact N D HD). now apply RNE_mono.
Qed.

(** What [binary_round_aux] returns for the position [T / D] in units of
    [2^ex], when [ex] is no larger than the exponent [fexp] chooses: the
    nearest mantissa at that exponent. *)
Lemma binary_round_aux_char (mx ex : Z) (lx : location) (T D : Z) :
  0 < D -> 0 <= T -> mx = T / D -> lx = loc_of (T mod D) D ->
  ex <= fexp prec emax (Zdigits2 mx + ex) ->
  let e1 := fexp prec emax (Zdigits2 mx + ex) in
  let m1 := RNE T (D * 2 ^ (e1 - ex)) in
  0 <= m1 <= 2 ^ 53 /\
  binary_round_aux prec emax false mx ex lx = rounded m1 e1.
Proof.
  intros HD HT Hmx Hlx Hex e1 m1.
  assert (Hmx0 : 0 <= mx) by (subst mx; apply Z.div_pos; lia).
  destruct (Zdigits2_bounds mx Hmx0) as (Hd0 & Hdhi & _).
  assert (He1 : -1074 <= e1 /\ Zdigits2 mx + ex - 53 <= e1)
    by (unfold e1; rewrite fexp_eq; lia).
  assert (Hpow : 0 < 2 ^ (e1 - ex)) by (apply Z.pow_pos_nonneg; lia).
  assert (HD1 : 0 < D * 2 ^ (e1 - ex)) by nia.
  assert (Hm1 : 0 <= m1 <= 2 ^ 53).
  { pose proof (RNE_floor T (D * 2 ^ (e1 - ex)) HD1) as Hfl. fold m1 in Hfl.
    rewrite <- Z.div_div in Hfl by lia. rewrite <- Hmx in Hfl.
    assert (0 <= mx / 2 ^ (e1 - ex)) by (apply Z.div_pos; lia).
    assert (mx / 2 ^ (e1 - ex) < 2 ^ 53).
    { apply Z.div_lt_upper_bound; [lia|].
      rewrite <- Z.pow_add_r by lia.
      eapply Z.lt_le_trans; [exact Hdhi|].
      apply Z.pow_le_mono_r; lia. }
    lia. }
  split; [exact Hm1|].
  unfold binary_round_aux, shr_fexp. fold e1.
  destruct (shr_Rep (shr_record_of_loc mx lx) ex (e1 - ex) T D)
    as (mrs' & Hshr & (_ & _ & Hm' & Hl')).
  { subst mx lx. now apply Rep_of_loc. }
  { lia. }
  rewrite Hshr. replace (ex + (e1 - ex)) with e1 by lia.
  rewrite Hm', Hl'. fold (RNE T (D * 2 ^ (e1 - ex))). fold m1.
  clearbody m1. clear Hshr Hm' Hl' mrs'.
  unfold rounded.
  destruct (Z.eqb_spec m1 0) as [-> | Hne].
  - rewrite shr_nonpos by (simpl Zdigits2; rewrite fexp_eq; lia).
    reflexivity.
  - destruct (Z.ltb_spec m1 (2 ^ 53)) as [Hlt | Hge].
    + destruct (Zdigits2_bounds m1 ltac:(lia)) as (Hdm0 & _ & Hdlo).
      specialize (Hdlo ltac:(lia)).
      assert (Zdigits2 m1 <= 53).
      { destruct (Z.leb_spec (Zdigits2 m1) 53); [assumption|].
        assert (2 ^ 53 <= 2 ^ (Zdigits2 m1 - 1)) by (apply Z.pow_le_mono_r; lia).
        lia. }
      rewrite shr_nonpos by (rewrite fexp_eq; lia).
      rewrite shr_record_of_loc_m.
      destruct m1 as [| p | p]; try lia.
      change (emax - prec) with 971. reflexivity.
    + assert (m1 = 2 ^ 53) by lia. subst m1.
      replace (fexp prec emax (Zdigits2 (2 ^ 53) + e1) - e1) with 1
        by (rewrite fexp_eq; change (Zdigits2 (2 ^ 53)) with 54; lia).
      reflexivity.
Qed.

Lemma Pos_iter_xO (p k : positive) :
  Z.pos (Pos.iter xO p k) = Z.pos p * 2 ^ Z.pos k.
Proof.
  induction k as [| k IH] using Pos.peano_ind.
  - simpl. lia.
  - rewrite Pos.iter_succ, Pos2Z.inj_xO, IH, Pos2Z.inj_succ, Z.pow_succ_r by lia.
    ring.
Qed.

Lemma pow2_split (a b : Z) : 0 <= a -> 0 <= b -> 2 ^ (a + b) = 2 ^ a * 2 ^ b.
Proof. intros. apply Z.pow_add_r; lia. Qed.

Lemma pow2_pos (a : Z) : 0 <= a -> 0 < 2 ^ a.
Proof. intros. apply Z.pow_pos_nonneg; lia. Qed.

Lemma Zdigits2_le (s t : Z) : 0 < s <= t -> Zdigits2 s <= Zdigits2 t.
Proof.
  intros Hst.
  destruct (Zdigits2_bounds s ltac:(lia)) as (? & _ & Hs).
  destruct (Zdigits2_bounds t ltac:(lia)) as (? & Ht & _).
  specialize (Hs ltac:(lia)).
  destruct (Z.leb_spec (Zdigits2 s) (Zdigits2 t)); [assumption|].
  assert (2 ^ Zdigits2 t <= 2 ^ (Zdigits2 s - 1)) by (apply Z.pow_le_mono_r; lia).
  lia.
Qed.

(** Rounding to 53 significant bits keeps the order. *)
Lemma nearest_int_mono (s t : Z) :
  0 < s <= t -> nearest_int s <= nearest_int t.
Proof.
  intros Hst. unfold nearest_int.
  pose proof (Zdigits2_le s t Hst) as Hd.
  destruct (Zdigits2_bounds s ltac:(lia)) as (Hds0 & Hshi & Hslo).
  destruct (Zdigits2_bounds t ltac:(lia)) as (Hdt0 & Hthi & Htlo).
  specialize (Hslo ltac:(lia)). specialize (Htlo ltac:(lia)).
  set (ns := Z.max (Zdigits2 s - 53) 0).
  set (nt := Z.max (Zdigits2 t - 53) 0).
  assert (Hns : 0 <= ns <= nt) by lia.
  pose proof (pow2_pos ns ltac:(lia)) as Hpns.
  pose proof (pow2_pos nt ltac:(lia)) as Hpnt.
  destruct (Z.eq_dec ns nt) as [E | Hlt].
  - rewrite E. apply Z.mul_le_mono_nonneg_r; [lia|].
    apply RNE_mono; lia.
  - assert (Hnt : nt = Zdigits2 t - 53) by lia.
    assert (Hdlt : Zdigits2 s < Zdigits2 t) by lia.
    transitivity (2 ^ (Zdigits2 t - 1)).
    + assert (Hle : RNE s (2 ^ ns) <= 2 ^ (Zdigits2 t - 1 - ns)).
      { apply RNE_le; [lia|].
        rewrite <- pow2_split by lia.
        replace (Zdigits2 t - 1 - ns + ns) with (Zdigits2 t - 1) by lia.
        assert (2 ^ Zdigits2 s <= 2 ^ (Zdigits2 t - 1))
          by (apply Z.pow_le_mono_r; lia).
        lia. }
      replace (2 ^ (Zdigits2 t - 1)) with (2 ^ (Zdigits2 t - 1 - ns) * 2 ^ ns).
      * apply Z.mul_le_mono_nonneg_r; lia.
      * rewrite <- pow2_split by lia. f_equal. lia.
    + assert (Hge : 2 ^ 52 <= RNE t (2 ^ nt)).
      { apply RNE_ge; [lia|].
        rewrite <- pow2_split by lia.
        replace (52 + nt) with (Zdigits2 t - 1) by lia. exact Htlo. }
      replace (2 ^ (Zdigits2 t - 1)) with (2 ^ 52 * 2 ^ nt).
      * apply Z.mul_le_mono_nonneg_r; lia.
      * rewrite <- pow2_split by lia. f_equal. lia.
Qed.

(** [float64(t)] for a positive [int64]: a normal number whose value is
    [nearest_int t]. *)
Lemma binary64_of_int64_pos (t : Z) :
  0 < t < 2 ^ 63 ->
  exists (m : positive) (e : Z),
    Prim2SF (binary64_of_int64 t) = S754_finite false m e /\
    2 ^ 52 <= Z.pos m < 2 ^ 53 /\ -52 <= e <= 11 /\
    Z.pos m * 2 ^ (e + 52) = 2 ^ 52 * nearest_int t.
Proof.
  intros Ht. unfold binary64_of_int64.
  destruct (Z.eqb_spec t Int64.min_int) as [E | _];
    [unfold Int64.min_int in E; lia|].
  destruct (Z.ltb_spec t 0) as [E | _]; [lia|].
  rewrite of_uint63_spec, Uint63.of_Z_spec.
  rewrite Z.mod_small by (change wB with (2 ^ 63); lia).
  destruct t as [| p | p]; try lia.
  unfold binary_normalize, binary_round, nearest_int.
  pose proof (digits2_pos_bounds p) as [Hlo Hhi].
  simpl Zdigits2.
  set (d := Z.pos (digits2_pos p)) in *.
  assert (Hd : 1 <= d <= 63).
  { split; [unfold d; lia|].
    destruct (Z.leb_spec d 63); [assumption|].
    assert (2 ^ 63 <= 2 ^ (d - 1)) by (apply Z.pow_le_mono_r; lia). lia. }
  destruct (Z.ltb_spec d 53) as [Hsmall | Hbig].
  - (* fewer than 53 bits: aligned to the left, exact *)
    assert (Hsh : fexp prec emax (d + 0) - 0 = Z.neg (Z.to_pos (53 - d))).
    { rewrite fexp_eq, <- (Pos2Z.opp_pos (Z.to_pos (53 - d))), Z2Pos.id by lia. lia. }
    unfold shl_align. rewrite Hsh.
    set (k := Z.to_pos (53 - d)).
    assert (Hk : Z.pos k = 53 - d) by (unfold k; rewrite Z2Pos.id; lia).
    pose proof (Pos_iter_xO p k) as Hmz. rewrite Hk in Hmz.
    set (mz := Pos.iter xO p k) in *.
    assert (Hp52 : 2 ^ (d - 1) * 2 ^ (53 - d) = 2 ^ 52)
      by (rewrite <- pow2_split by lia; f_equal; lia).
    assert (Hp53 : 2 ^ d * 2 ^ (53 - d) = 2 ^ 53)
      by (rewrite <- pow2_split by lia; f_equal; lia).
    pose proof (pow2_pos (53 - d) ltac:(lia)) as Hpk.
    assert (Hmzb : 2 ^ 52 <= Z.pos mz < 2 ^ 53) by nia.
    assert (Hdz : Z.pos (digits2_pos mz) = 53)
      by (apply digits2_pos_unique; exact Hmzb).
    assert (Hfe : fexp prec emax (d + 0) = d - 53) by (rewrite fexp_eq; lia).
    rewrite Hfe.
    destruct (binary_round_aux_char (Z.pos mz) (d - 53) loc_Exact (Z.pos mz) 1)
      as [_ Hchar].
    + lia.
    + lia.
    + now rewrite Z.div_1_r.
    + now rewrite Z.mod_1_r.
    + simpl Zdigits2. rewrite Hdz, fexp_eq. lia.
    + simpl Zdigits2 in Hchar. rewrite Hdz in Hchar.
      replace (fexp prec emax (53 + (d - 53))) with (d - 53) in Hchar
        by (rewrite fexp_eq; lia).
      replace (1 * 2 ^ (d - 53 - (d - 53))) with 1 in Hchar
        by (rewrite Z.sub_diag; reflexivity).
      replace (RNE (Z.pos mz) 1) with (Z.pos mz) in Hchar
        by (rewrite <- (Z.mul_1_r (Z.pos mz)) at 2; now rewrite RNE_exact).
      rewrite Hchar. unfold rounded.
      destruct (Z.eqb_spec (Z.pos mz) 0); [lia|].
      destruct (Z.ltb_spec (Z.pos mz) (2 ^ 53)); [|lia].
      destruct (Z.leb_spec (d - 53) 971); [|lia].
      exists mz, (d - 53). split; [reflexivity|].
      split; [exact Hmzb|]. split; [lia|].
      replace (Z.max (d - 53) 0) with 0 by lia.
      replace (RNE (Z.pos p) (2 ^ 0)) with (Z.pos p)
        by (change (2 ^ 0) with 1;
            rewrite <- (Z.mul_1_r (Z.pos p)) at 2; now rewrite RNE_exact).
      rewrite Hmz. replace (d - 53 + 52) with (d - 1) by lia.
      change (2 ^ 0) with 1. nia.
  - (* 53 bits or more: rounded to 53 *)
    assert (Hsh : shl_align p 0 (fexp prec emax (d + 0)) = (p, 0)).
    { unfold shl_align. rewrite fexp_eq.
      destruct (Z.max (d + 0 - 53) (-1074) - 0) eqn:E; try reflexivity. lia. }
    rewrite Hsh.
    destruct (binary_round_aux_char (Z.pos p) 0 loc_Exact (Z.pos p) 1)
      as [Hm1 Hchar].
    + lia.
    + lia.
    + now rewrite Z.div_1_r.
    + now rewrite Z.mod_1_r.
    + simpl Zdigits2. fold d. rewrite fexp_eq. lia.
    + simpl Zdigits2 in Hchar, Hm1. fold d in Hchar, Hm1.
      replace (fexp prec emax (d + 0)) with (d - 53) in Hchar, Hm1
        by (rewrite fexp_eq; lia).
      rewrite Z.sub_0_r, Z.mul_1_l in Hchar, Hm1.
      replace (Z.max (d - 53) 0) with (d - 53) by lia.
      set (n := d - 53) in *.
      set (m1 := RNE (Z.pos p) (2 ^ n)) in *.
      pose proof (pow2_pos n ltac:(lia)) as Hpn.
      assert (Hge : 2 ^ 52 <= m1).
      { apply RNE_ge; [lia|]. rewrite <- pow2_split by lia.
        replace (52 + n) with (d - 1) by lia. exact Hlo. }
      rewrite Hchar. unfold rounded.
      destruct (Z.eqb_spec m1 0); [lia|].
      destruct (Z.ltb_spec m1 (2 ^ 53)).
      * destruct (Z.leb_spec n 971); [|lia].
        exists (Z.to_pos m1), n. split; [reflexivity|].
        rewrite Z2Pos.id by lia. split; [lia|]. split; [lia|].
        rewrite (Z.add_comm n 52), pow2_split by lia. ring.
      * destruct (Z.leb_spec (n + 1) 971); [|lia].
        exists (Z.to_pos (2 ^ 52)), (n + 1). split; [reflexivity|].
        rewrite Z2Pos.id by lia. split; [lia|]. split; [lia|].
        assert (m1 = 2 ^ 53) by lia.
        replace (n + 1 + 52) with (53 + n) by lia.
        rewrite pow2_split by lia. lia.
Qed.

Lemma Prim2SF_hundred :
  Prim2SF (binary64_of_int64 100) = S754_finite false m100 (-46).
Proof. vm_compute. reflexivity. Qed.

Lemma Prim2SF_zero : Prim2SF (binary64_of_int64 0) = S754_zero false.
Proof. vm_compute. reflexivity. Qed.

(** The location the division computes is the location of its remainder. *)
Lemma new_location_loc_of (D R : Z) :
  0 < D -> 0 <= R < D -> new_location D R = loc_of R D.
Proof.
  intros HD HR. unfold new_location, new_location_even, new_location_odd, loc_of.
  destruct (Z.even D) eqn:Ev; [reflexivity|].
  destruct (R =? 0); [reflexivity|]. f_equal.
  assert (Hodd : Z.odd D = true) by (rewrite <- Z.negb_even, Ev; reflexivity).
  apply Z.odd_spec in Hodd. destruct Hodd as [k Hk].
  destruct (Z.compare_spec (2 * R + 1) D); destruct (Z.compare_spec (2 * R) D);
    try reflexivity; lia.
Qed.

Lemma SFdiv_core_binary_normal (ma mb : positive) (ea eb : Z) :
  Z.pos (digits2_pos ma) = 53 -> Z.pos (digits2_pos mb) = 53 ->
  -1021 <= ea - eb ->
  SFdiv_core_binary prec emax (Z.pos ma) ea (Z.pos mb) eb =
  (Z.pos ma * 2 ^ 53 / Z.pos mb, ea - eb - 53,
   loc_of ((Z.pos ma * 2 ^ 53) mod Z.pos mb) (Z.pos mb)).
Proof.
  intros Ha Hb He. unfold SFdiv_core_binary. simpl Zdigits2.
  rewrite Ha, Hb.
  replace (Z.min (fexp prec emax (53 + ea - (53 + eb))) (ea - eb))
    with (ea - eb - 53) by (rewrite fexp_eq; lia).
  replace (ea - eb - (ea - eb - 53)) with 53 by lia.
  rewrite Z.shiftl_mul_pow2 by lia.
  unfold Z.div, Z.modulo.
  destruct (Z.div_eucl (Z.pos ma * 2 ^ 53) (Z.pos mb)) as [q r] eqn:E.
  pose proof (Z.mod_pos_bound (Z.pos ma * 2 ^ 53) (Z.pos mb) ltac:(lia)) as Hr.
  unfold Z.modulo in Hr. rewrite E in Hr.
  rewrite new_location_loc_of by lia. reflexivity.
Qed.

(** The quotient of two normal numbers, the first no larger than the
    second, is a normal number no larger than one. *)
Lemma SF64div_le_one (ma mb : positive) (ea eb : Z) :
  2 ^ 52 <= Z.pos ma < 2 ^ 53 -> 2 ^ 52 <= Z.pos mb < 2 ^ 53 ->
  -52 <= ea <= 11 -> -52 <= eb <= 11 ->
  Z.pos ma * 2 ^ (ea + 52) <= Z.pos mb * 2 ^ (eb + 52) ->
  exists (mq : positive) (eq : Z),
    SF64div (S754_finite false ma ea) (S754_finite false mb eb)
    = S754_finite false mq eq /\
    2 ^ 52 <= Z.pos mq < 2 ^ 53 /\ -117 <= eq <= -52 /\
    Z.pos mq <= 2 ^ (- eq).
Proof.
  intros Hma Hmb Hea Heb Hle.
  assert (Hda : Z.pos (digits2_pos ma) = 53) by (now apply digits2_pos_unique).
  assert (Hdb : Z.pos (digits2_pos mb) = 53) by (now apply digits2_pos_unique).
  unfold SF64div, SFdiv.
  rewrite SFdiv_core_binary_normal by (assumption || lia).
  set (T := Z.pos ma * 2 ^ 53). set (D := Z.pos mb).
  set (ex := ea - eb - 53).
  assert (HD : 0 < D) by (unfold D; lia).
  assert (HT : 0 <= T) by (unfold T; lia).
  set (q := T / D).
  assert (Hqlo : 2 ^ 52 <= q).
  { apply Z.div_le_lower_bound; [lia|]. unfold T, D. nia. }
  assert (Hqhi : q < 2 ^ 54).
  { apply Z.div_lt_upper_bound; [lia|]. unfold T, D. nia. }
  destruct (Zdigits2_bounds q ltac:(lia)) as (_ & Hdhi & Hdlo).
  specialize (Hdlo ltac:(lia)).
  set (dq := Zdigits2 q) in *.
  assert (Hdq : 53 <= dq <= 54).
  { split.
    - destruct (Z.leb_spec 53 dq); [assumption|].
      assert (2 ^ dq <= 2 ^ 52) by (apply Z.pow_le_mono_r; lia). lia.
    - destruct (Z.leb_spec dq 54); [assumption|].
      assert (2 ^ 54 <= 2 ^ (dq - 1)) by (apply Z.pow_le_mono_r; lia). lia. }
  (* the first is no larger: so is its exponent *)
  assert (Hj : ea <= eb).
  { destruct (Z.leb_spec ea eb); [assumption|]. exfalso.
    assert (2 ^ (eb + 52 + 1) <= 2 ^ (ea + 52)) by (apply Z.pow_le_mono_r; lia).
    rewrite pow2_split in H0 by lia. change (2 ^ 1) with 2 in H0.
    pose proof (pow2_pos (eb + 52) ltac:(lia)). nia. }
  set (j := eb - ea).
  assert (Hmaj : Z.pos ma <= Z.pos mb * 2 ^ j).
  { replace (eb + 52) with (ea + 52 + j) in Hle by (unfold j; lia).
    rewrite (pow2_split (ea + 52) j) in Hle by (unfold j; lia).
    apply (Z.mul_le_mono_pos_r _ _ (2 ^ (ea + 52))); [apply pow2_pos; lia|].
    replace (Z.pos mb * 2 ^ j * 2 ^ (ea + 52))
      with (Z.pos mb * (2 ^ (ea + 52) * 2 ^ j)) by ring.
    exact Hle. }
  destruct (binary_round_aux_char q ex
              (loc_of (T mod D) D) T D HD HT eq_refl eq_refl)
    as [Hm1 Hchar].
  { fold dq. rewrite fexp_eq. lia. }
  fold dq in Hm1, Hchar.
  replace (fexp prec emax (dq + ex)) with (dq + ex - 53) in Hm1, Hchar
    by (rewrite fexp_eq; unfold ex; lia).
  replace (dq + ex - 53 - ex) with (dq - 53) in Hm1, Hchar by lia.
  set (n1 := dq - 53) in *.
  set (m1 := RNE T (D * 2 ^ n1)) in *.
  pose proof (pow2_pos n1 ltac:(unfold n1; lia)) as Hpn.
  assert (HD1 : 0 < D * 2 ^ n1) by nia.
  assert (Hge : 2 ^ 52 <= m1).
  { apply RNE_ge; [exact HD1|].
    pose proof (Z.mul_div_le T D HD) as Hqd. fold q in Hqd.
    replace (2 ^ 52 * (D * 2 ^ n1)) with (D * (2 ^ 52 * 2 ^ n1)) by ring.
    rewrite <- pow2_split by (unfold n1; lia).
    replace (52 + n1) with (dq - 1) by (unfold n1; lia). nia. }
  assert (Hup : m1 <= 2 ^ (53 + j - n1)).
  { apply RNE_le; [exact HD1|].
    replace (2 ^ (53 + j - n1) * (D * 2 ^ n1))
      with (D * (2 ^ (53 + j - n1) * 2 ^ n1)) by ring.
    rewrite <- pow2_split by (unfold n1, j; lia).
    replace (53 + j - n1 + n1) with (j + 53) by lia.
    rewrite pow2_split by (unfold j; lia). unfold T, D. nia. }
  change (xorb false false) with false. fold q. rewrite Hchar.
  unfold rounded.
  destruct (Z.eqb_spec m1 0); [lia|].
  destruct (Z.ltb_spec m1 (2 ^ 53)).
  - destruct (Z.leb_spec (dq + ex - 53) 971); [| unfold ex in *; lia].
    exists (Z.to_pos m1), (dq + ex - 53). split; [reflexivity|].
    rewrite Z2Pos.id by lia. split; [lia|]. split; [unfold ex; lia|].
    replace (- (dq + ex - 53)) with (53 + j - n1) by (unfold ex, j, n1; lia).
    exact Hup.
  - assert (Hjn : n1 <= j).
    { destruct (Z.leb_spec n1 j); [assumption|].
      assert (2 ^ (53 + j - n1) <= 2 ^ 52) by (apply Z.pow_le_mono_r; unfold j; lia).
      lia. }
    destruct (Z.leb_spec (dq + ex - 53 + 1) 971); [| unfold ex in *; lia].
    exists (Z.to_pos (2 ^ 52)), (dq + ex - 53 + 1). split; [reflexivity|].
    rewrite Z2Pos.id by lia. split; [lia|]. split; [unfold ex, j, n1 in *; lia|].
    apply Z.pow_le_mono_r; unfold ex, j, n1 in *; lia.
Qed.

(** Comparing two positive numbers: by exponent, then by mantissa. *)
Lemma SFleb_finite (m1 m2 : positive) (e1 e2 : Z) :
  e1 < e2 \/ (e1 = e2 /\ Z.pos m1 <= Z.pos m2) ->
  SFleb (S754_finite false m1 e1) (S754_finite false m2 e2) = true.
Proof.
  intros H. unfold SFleb, SFcompare.
  destruct (Z.compare_spec e1 e2) as [E | E | E]; [| reflexivity | lia].
  destruct H as [H | [_ H]]; [lia|].
  change (Pos.compare_cont Eq m1 m2) with (Pos.compare m1 m2).
  rewrite Pos2Z.inj_compare.
  destruct (Z.compare_spec (Z.pos m1) (Z.pos m2)); try reflexivity. lia.
Qed.

(** A normal number no larger than one, times one hundred, is no larger
    than one hundred, and not negative. *)
Lemma SF64mul_hundred (mq : positive) (eq : Z) :
  2 ^ 52 <= Z.pos mq < 2 ^ 53 -> -117 <= eq <= -52 ->
  Z.pos mq <= 2 ^ (- eq) ->
  let r := SF64mul (S754_finite false mq eq) (S754_finite false m100 (-46)) in
  SFleb (S754_zero false) r = true /\
  SFleb r (S754_finite false m100 (-46)) = true.
Proof.
  intros Hmq Heq Hone.
  unfold SF64mul, SFmul. change (xorb false false) with false.
  set (T := Z.pos (mq * m100)). set (ex := eq + -46).
  assert (HTe : T = Z.pos mq * Z.pos m100) by (unfold T; lia).
  assert (Hm100 : Z.pos m100 = 100 * 2 ^ 46) by reflexivity.
  assert (H100b : 2 ^ 52 <= Z.pos m100 < 2 ^ 53) by (rewrite Hm100; lia).
  assert (HT104 : 2 ^ 104 <= T).
  { change (2 ^ 104) with (2 ^ 52 * 2 ^ 52). rewrite HTe. nia. }
  pose proof (pow2_pos (- eq) ltac:(lia)) as Hpe.
  assert (HTup : T <= Z.pos m100 * 2 ^ (- eq)) by (rewrite HTe; nia).
  destruct (Zdigits2_bounds T ltac:(lia)) as (_ & Hdhi & Hdlo).
  specialize (Hdlo ltac:(lia)).
  set (dT := Zdigits2 T) in *.
  assert (HdT : 105 <= dT <= 53 - eq).
  { split.
    - destruct (Z.leb_spec 105 dT); [assumption|].
      assert (2 ^ dT <= 2 ^ 104) by (apply Z.pow_le_mono_r; lia). lia.
    - destruct (Z.leb_spec dT (53 - eq)); [assumption|].
      assert (2 ^ (53 - eq) <= 2 ^ (dT - 1)) by (apply Z.pow_le_mono_r; lia).
      replace (53 - eq) with (53 + - eq) in H0 by lia.
      rewrite pow2_split in H0 by lia. nia. }
  destruct (binary_round_aux_char T ex loc_Exact T 1) as [Hm1 Hchar].
  { lia. } { lia. } { now rewrite Z.div_1_r. } { now rewrite Z.mod_1_r. }
  { fold dT. rewrite fexp_eq. lia. }
  fold dT in Hm1, Hchar.
  replace (fexp prec emax (dT + ex)) with (dT + ex - 53) in Hm1, Hchar
    by (rewrite fexp_eq; unfold ex; lia).
  replace (dT + ex - 53 - ex) with (dT - 53) in Hm1, Hchar by lia.
  rewrite Z.mul_1_l in Hm1, Hchar.
  set (n1 := dT - 53) in *. set (e1 := dT + ex - 53) in *.
  set (m1 := RNE T (2 ^ n1)) in *.
  pose proof (pow2_pos n1 ltac:(unfold n1; lia)) as Hpn.
  assert (Hge : 2 ^ 52 <= m1).
  { apply RNE_ge; [exact Hpn|]. rewrite <- pow2_split by (unfold n1; lia).
    replace (52 + n1) with (dT - 1) by (unfold n1; lia). exact Hdlo. }
  assert (He1 : e1 <= -46) by (unfold e1, ex; lia).
  assert (Hup : m1 <= Z.pos m100 * 2 ^ (-46 - e1)).
  { apply RNE_le; [exact Hpn|].
    rewrite <- Z.mul_assoc, <- pow2_split by (unfold n1, e1, ex; lia).
    replace (-46 - e1 + n1) with (- eq) by (unfold n1, e1, ex; lia).
    exact HTup. }
  fold T ex. rewrite Hchar. unfold rounded.
  destruct (Z.eqb_spec m1 0); [lia|].
  destruct (Z.ltb_spec m1 (2 ^ 53)).
  - destruct (Z.leb_spec e1 971); [|lia].
    split; [reflexivity|].
    apply SFleb_finite. rewrite Z2Pos.id by lia.
    destruct (Z.eq_dec e1 (-46)) as [E | E]; [right | left; lia].
    split; [exact E|].
    rewrite E in Hup. change (2 ^ (-46 - -46)) with 1 in Hup. lia.
  - destruct (Z.leb_spec (e1 + 1) 971); [|lia].
    split; [reflexivity|].
    assert (e1 <> -46).
    { intros E. rewrite E in Hup. change (2 ^ (-46 - -46)) with 1 in Hup. lia. }
    apply SFleb_finite. rewrite Z2Pos.id by lia.
    destruct (Z.eq_dec (e1 + 1) (-46)) as [E | E]; [right | left; lia].
    split; [exact E | lia].
Qed.

Lemma Prim2SF_literals :
  Prim2SF 0%float = S754_zero false /\
  Prim2SF 100%float = S754_finite false m100 (-46).
Proof. split; vm_compute; reflexivity. Qed.

(** The success rate the code computes for [successful] out of [total]
    calls is a percentage, in binary64. *)
Lemma percentage_binary64 (successful total : Z) :
  0 <= successful <= total -> 0 < total < 2 ^ 63 ->
  percentage (fmul (F:=float)
                (fdiv (of_int64 successful) (of_int64 total)) fhundred).
Proof.
  intros Hs Ht.
  change (percentage (binary64_of_int64 successful / binary64_of_int64 total
                      * binary64_of_int64 100)%float).
  destruct Prim2SF_literals as [Hzero Hhundred].
  unfold percentage.
  rewrite !leb_spec, mul_spec, div_spec, Prim2SF_hundred, Hzero, Hhundred.
  destruct (binary64_of_int64_pos total Ht) as (mb & eb & Eb & Hmb & Heb & Hvb).
  rewrite Eb.
  destruct (Z.eq_dec successful 0) as [-> | Hne].
  - rewrite Prim2SF_zero. split; reflexivity.
  - destruct (binary64_of_int64_pos successful ltac:(lia))
      as (ma & ea & Ea & Hma & Hea & Hva).
    rewrite Ea.
    pose proof (nearest_int_mono successful total ltac:(lia)) as Hmono.
    destruct (SF64div_le_one ma mb ea eb Hma Hmb Hea Heb ltac:(lia))
      as (mq & eq & Eq & Hmq & Heq & Hone).
    rewrite Eq.
    exact (SF64mul_hundred mq eq Hmq Heq Hone).
Qed.

Lemma percentage_zero : percentage (of_int64 (F:=float) 0).
Proof. split; vm_compute; reflexivity. Qed.

(** The reads of [read_summary] when the counters of both groups are
    unwrapped counts. *)
Lemma read_summary_consistent (fmt : Time -> string) (now : Time) (l : loc)
      (m : Metrics float) (ok ko aok ako : Z) :
  0 <= ok -> 0 <= ko -> ok + ko <= Int64.max_int ->
  0 <= aok -> 0 <= ako -> aok + ako <= Int64.max_int ->
  command_counts ok ko m -> request_counts aok ako m ->
  consistent (read_summary fmt now l m).
Proof.
  intros Hok Hko Hsum Haok Hako Hasum (Hs & Hf & Ht) (Has & Haf & Hat).
  rewrite !Int64Facts.wrap_in_range in Hs, Hf, Ht, Has, Haf, Hat
    by (unfold Int64.in_range, Int64.min_int, Int64.max_int in *; lia).
  unfold Int64.max_int in Hsum, Hasum.
  unfold consistent, read_summary.
  cbn [sCommandSuccessRate sAPISuccessRate sCommandsSuccessful sCommandsFailed
       sCommandsTotal sAPIRequestsSuccessful sAPIRequestsFailed
       sAPIRequestsTotal].
  rewrite Hs, Hf, Ht, Has, Haf, Hat.
  split; [|split; [|split; lia]].
  - destruct (Z.ltb_spec 0 (ok + ko)).
    + apply percentage_binary64; lia.
    + apply percentage_zero.
  - destruct (Z.ltb_spec 0 (aok + ako)).
    + apply percentage_binary64; lia.
    + apply percentage_zero.
Qed.

(** C3. After every run of record operations in which no counter has
    wrapped, the summary [GetSummary] produces has both success rates within
    [[0, 100]], as the [float64] values the code computes (IEEE binary64,
    rounding to nearest at the two conversions, the division and the
    multiplication), and counts, in each group, no more successes and
    failures than calls.  The same holds for a summary taken in the middle
    of a burst: its second critical section, which reads all the counters,
    may run after any further steps [later] of other goroutines. *)
Theorem GetSummary_consistent (fmt : Time -> string) (start now : Time)
        (st : MapStore) (tr later : list Step) :
  countable (tr ++ later) ->
  consistent (fst (GetSummary fmt now (run (Initialize_world start st) tr))) /\
  consistent (snapshot_during fmt now (run (Initialize_world start st) tr)
                              later).
Proof.
  intros Hcount.
  assert (Hany : forall l, countable l ->
            forall a, consistent
              (read_summary fmt now a
                 (self (run (Initialize_world (F:=float) start st) l)))).
  { intros l (Hc & Hr) a.
    pose proof (commands_in_nonneg true l).
    pose proof (commands_in_nonneg false l).
    pose proof (requests_in_nonneg true l).
    pose proof (requests_in_nonneg false l).
    eapply (read_summary_consistent fmt now a _
              (commands_in true l) (commands_in false l)
              (requests_in true l) (requests_in false l)); try lia.
    - apply (run_command_counts l 0 0), Initialize_command_counts.
    - apply (run_request_counts l 0 0), Initialize_request_counts. }
  split.
  - apply Hany, (countable_app_l _ _ Hcount).
  - unfold snapshot_during.
    destruct (copy_errors (run (Initialize_world start st) tr))
      as [a w1] eqn:Hcopy.
    assert (Hself : self w1 = self (run (Initialize_world start st) tr)).
    { change w1 with (snd (a, w1)). rewrite <- Hcopy. apply copy_errors_self. }
    rewrite (run_self later _ _ Hself).
    change (run (run (Initialize_world start st) tr) later)
      with (fold_left exec later (fold_left exec tr
                                   (Initialize_world (F:=float) start st))).
    rewrite <- fold_left_app. apply (Hany (tr ++ later) Hcount).
Qed.

Lemma GetSummary_consistent_witness :
  consistent
    (fst (GetSummary (fun _ => ""%string) 100
            (run (Initialize_world 0 ∅)
                 [SCommandsLocked true; SCommandsWindowAdd 1;
                  SAPILocked false 7; SCommandsRateStore 2])))
  /\ consistent
       (snapshot_during (fun _ => ""%string) 100
          (run (Initialize_world 0 ∅)
               [SCommandsLocked true; SCommandsWindowAdd 1;
                SAPILocked false 7; SCommandsRateStore 2])
          [SCommandsLocked false; SAPILocked true 3]).
Proof.
  apply GetSummary_consistent. split; vm_compute; discriminate.
Defined.

(** ** Response times *)

(** C5, as the code has it.  [IncrementAPIRequests] never rejects a call:
    whatever [responseTimeMs] is, negative included, it is added as given to
    [APIResponseTimeSum] by [int64] addition, and [APIResponseCount] goes up
    by one.  Nothing is clamped: while the sum stays in range it moves by
    exactly [responseTimeMs], so a negative value lowers it. *)
Theorem IncrementAPIRequests_adds_as_given {F : Type} `{Float64 F}
        (successful : bool) (responseTimeMs : Z) (now rateNow : Time)
        (m : Metrics F) :
  let m' := IncrementAPIRequests successful responseTimeMs now rateNow m in
  APIResponseTimeSum m' = Int64.add (APIResponseTimeSum m) responseTimeMs /\
  APIResponseCount m' = Int64.incr (APIResponseCount m) /\
  (Int64.in_range (APIResponseTimeSum m + responseTimeMs) ->
   APIResponseTimeSum m' = APIResponseTimeSum m + responseTimeMs).
Proof.
  intros m'. repeat split.
  intros Hrange. subst m'. simpl.
  now apply Int64Facts.wrap_in_range.
Qed.

Lemma IncrementAPIRequests_adds_as_given_witness :
  APIResponseTimeSum
    (IncrementAPIRequests true (-5) 1 2
       (IncrementAPIRequests true 40 0 0
          (self (Initialize_world (F:=float) 0 ∅)))) = 40 + -5.
Proof.
  apply (IncrementAPIRequests_adds_as_given (F:=float) true (-5) 1 2).
  vm_compute. split; discriminate.
Defined.

(** C5, as the claim has it, fails: on a new registry a response time of
    [-5] is accumulated as [-5], and the sum decreases. *)
Lemma negative_response_time_not_clamped :
  APIResponseTimeSum
    (IncrementAPIRequests true (-5) 1 2
       (self (Initialize_world (F:=float) 0 ∅))) = -5 /\
  APIResponseTimeSum
    (IncrementAPIRequests true (-5) 1 2
       (self (Initialize_world (F:=float) 0 ∅)))
  < APIResponseTimeSum (self (Initialize_world (F:=float) 0 ∅)).
Proof. split; reflexivity. Qed.

(** C6. [GetAverageResponseTime] returns [0.0] when [APIResponseCount] is
    zero, without dividing, and otherwise the quotient of the two
    accumulators converted to [float64].  On a new registry, three requests
    with latencies of 10, 20 and 30 milliseconds, whatever their outcomes and
    times, give [20.0] in binary64, and 20 in exact arithmetic. *)
Theorem GetAverageResponseTime_spec :
  (forall (F : Type) (ops : Float64 F) (m : Metrics F),
      APIResponseCount m = 0 -> GetAverageResponseTime m = of_int64 0) /\
  (forall (F : Type) (ops : Float64 F) (m : Metrics F),
      APIResponseCount m <> 0 ->
      GetAverageResponseTime m =
      fdiv (of_int64 (APIResponseTimeSum m)) (of_int64 (APIResponseCount m))) /\
  of_int64 (F:=float) 0 = 0%float /\
  (forall (start : Time) (st : MapStore) (b1 b2 b3 : bool)
          (t1 r1 t2 r2 t3 r3 : Time),
      let recorded (F : Type) (ops : Float64 F) : Metrics F :=
        self (calls (Initialize_world start st)
                    [CallAPIRequests b1 10 t1 r1; CallAPIRequests b2 20 t2 r2;
                     CallAPIRequests b3 30 t3 r3]) in
      GetAverageResponseTime (recorded float binary64) = 20%float /\
      (GetAverageResponseTime (recorded Q exact) == 20)%Q).
Proof.
  split; [|split; [|split]].
  - intros F ops m Hzero. unfold GetAverageResponseTime. now rewrite Hzero.
  - intros F ops m Hcount. unfold GetAverageResponseTime.
    destruct (Z.eqb_spec (APIResponseCount m) 0); [contradiction|reflexivity].
  - reflexivity.
  - intros start st b1 b2 b3 t1 r1 t2 r2 t3 r3 recorded. split; reflexivity.
Qed.

Lemma GetAverageResponseTime_spec_witness :
  GetAverageResponseTime (self (Initialize_world (F:=float) 0 ∅)) = 0%float.
Proof. apply (proj1 GetAverageResponseTime_spec). reflexivity. Defined.

(** ** Construction of a window *)

(** C8, as the code has it.  [NewRateWindow] keeps the duration it is
    given, whatever its sign, and starts with no events; it neither rejects
    nor clamps.  The two windows of the registry [Initialize] builds last 60
    seconds. *)
Theorem NewRateWindow_keeps_duration :
  (forall W : Duration,
      window (NewRateWindow W) = W /\ events (NewRateWindow W) = []) /\
  (forall (F : Type) (ops : Float64 F) (now : Time) (st : MapStore),
      window (commandWindow (self (Initialize_world now st)))
      = 60000000000 /\
      window (apiWindow (self (Initialize_world now st))) = 60000000000).
Proof. split; [intros W | intros F ops now st]; split; reflexivity. Qed.

(** C8, as the claim has it, fails: a window built with a negative duration
    has that negative duration. *)
Lemma NewRateWindow_nonpositive :
  window (NewRateWindow (-1)) = -1 /\ window (NewRateWindow 0) = 0.
Proof. split; reflexivity. Qed.

(** ** The rate of a window *)

Lemma Add_record (t : Time) (rw : RateWindow) :
  Add t rw =
  {| events := newer (t + Int64.neg (window rw)) (events rw ++ [t]);
     window := window rw |}.
Proof. unfold Add, Time.Add. now rewrite fold_keep_valid. Qed.

(** The first event of a 60-second window is retained. *)
Lemma Add_first (t : Time) :
  Add t (NewRateWindow (60 * Second)) =
  {| events := [t]; window := 60 * Second |}.
Proof.
  rewrite Add_record. simpl events. simpl window.
  change (Int64.neg (60 * Second)) with (-60000000000).
  unfold newer, After; simpl.
  destruct (Z.ltb_spec (t + -60000000000) t); [reflexivity | lia].
Qed.

Lemma Rate_nonempty {F : Type} `{Float64 F} (now : Time) (rw : RateWindow) :
  events rw <> [] ->
  Rate now rw =
  fdiv (of_int64 (Z.of_nat (length (newer (now + Int64.neg (window rw))
                                          (events rw)))))
       (Seconds (window rw)).
Proof.
  intros Hne. unfold Rate. destruct (events rw) eqn:E; [contradiction|].
  now rewrite fold_count_valid.
Qed.

(** A window of zero or negative duration never holds an event: each write
    evicts what it appends. *)
Lemma record_all_nonpositive (ts : list Time) :
  forall rw : RateWindow,
    Int64.min_int < window rw <= 0 -> events rw = [] ->
    events (record_all ts rw) = [] /\ window (record_all ts rw) = window rw.
Proof.
  induction ts as [|t ts IH]; intros rw HW Hempty; [now split|].
  simpl. destruct (IH (Add t rw)) as [He Hw].
  - now rewrite Add_window.
  - rewrite Add_events, Hempty. unfold newer, After, Int64.neg; simpl.
    rewrite Int64Facts.wrap_in_range
      by (unfold Int64.in_range, Int64.min_int, Int64.max_int in *; lia).
    destruct (Z.ltb_spec (t + - window rw) t); [lia | reflexivity].
  - split; [exact He | now rewrite Hw, Add_window].
Qed.

(** C7. [Rate] returns [0.0] when the window holds no event, without
    dividing; otherwise it returns the number of held events after
    [now - W], converted to [float64], divided by [W.Seconds()] (a
    [float64] division, which cannot fail).  For a window of 60 seconds: with
    no held event after [now - W] the rate is [0.0]; one event recorded less
    than 60 seconds before [now] gives [1/60]; the same event 60 seconds or
    more before [now] gives [0.0].  The three values are those of binary64,
    and of exact arithmetic.  A window built with a duration of zero or less
    holds no event after any writes, so its rate is [0.0] and the division by
    a zero number of seconds is never reached. *)
Theorem Rate_spec :
  (forall (F : Type) (ops : Float64 F) (now : Time) (rw : RateWindow),
      events rw = [] -> Rate now rw = of_int64 0) /\
  (forall (F : Type) (ops : Float64 F) (now : Time) (W : Duration)
          (ts : list Time),
      Int64.min_int < W <= 0 ->
      Rate now (record_all ts (NewRateWindow W)) = of_int64 0) /\
  (forall (F : Type) (ops : Float64 F) (now : Time) (rw : RateWindow),
      events rw <> [] ->
      Rate now rw =
      fdiv (of_int64 (Z.of_nat (length (newer (now + Int64.neg (window rw))
                                              (events rw)))))
           (Seconds (window rw))) /\
  (forall (now : Time) (rw : RateWindow),
      window rw = 60 * Second ->
      newer (now + Int64.neg (window rw)) (events rw) = [] ->
      Rate (F:=float) now rw = 0%float /\ (Rate (F:=Q) now rw == 0)%Q) /\
  (forall t now : Time,
      now - t < 60 * Second ->
      let rw := Add t (NewRateWindow (60 * Second)) in
      Rate (F:=float) now rw = (1 / 60)%float /\
      (Rate (F:=Q) now rw == 1 # 60)%Q) /\
  (forall t now : Time,
      60 * Second <= now - t ->
      let rw := Add t (NewRateWindow (60 * Second)) in
      Rate (F:=float) now rw = 0%float /\ (Rate (F:=Q) now rw == 0)%Q).
Proof.
  assert (Hidle : forall (now : Time) (rw : RateWindow),
             window rw = 60 * Second ->
             newer (now + Int64.neg (window rw)) (events rw) = [] ->
             Rate (F:=float) now rw = 0%float /\ (Rate (F:=Q) now rw == 0)%Q).
  { intros now rw HW Hnone. destruct (events rw) eqn:E.
    - unfold Rate. rewrite E. split; reflexivity.
    - rewrite !Rate_nonempty by (rewrite E; discriminate).
      rewrite E, Hnone, HW. split; vm_compute; reflexivity. }
  split; [|split; [|split; [|split; [|split]]]].
  - intros F ops now rw Hempty. unfold Rate. now rewrite Hempty.
  - intros F ops now W ts HW.
    destruct (record_all_nonpositive ts (NewRateWindow W) HW eq_refl)
      as [Hempty _].
    unfold Rate. now rewrite Hempty.
  - intros F ops now rw. apply Rate_nonempty.
  - exact Hidle.
  - intros t now Hrecent rw. subst rw.
    rewrite Add_first, !Rate_nonempty by discriminate.
    simpl events. simpl window.
    change (Int64.neg (60 * Second)) with (-60000000000).
    unfold newer, After; simpl.
    destruct (Z.ltb_spec (now + -60000000000) t).
    + split; vm_compute; reflexivity.
    + unfold Second in *. lia.
  - intros t now Hold rw. subst rw. apply Hidle.
    + now rewrite Add_first.
    + rewrite Add_first. simpl events. simpl window.
      change (Int64.neg (60 * Second)) with (-60000000000).
      unfold newer, After; simpl.
      destruct (Z.ltb_spec (now + -60000000000) t);
        [unfold Second in *; lia | reflexivity].
Qed.

Lemma Rate_spec_witness :
  let rw := Add 5 (NewRateWindow (60 * Second)) in
  Rate (F:=float) 7 rw = (1 / 60)%float /\ (Rate (F:=Q) 7%Z rw == 1 # 60)%Q.
Proof.
  apply (proj1 (proj2 (proj2 (proj2 (proj2 Rate_spec)))) 5 7). reflexivity.
Defined.

(** X1.  A write evicts: after [Add timestamp], on a window whose duration is
    not the least [int64], the window holds exactly the earlier events and
    the new one that lie after [timestamp - W], in their order, and so every
    retained event is less than [W] old at [timestamp]. *)
Theorem Add_keeps_only_recent (timestamp : Time) (rw : RateWindow) :
  Int64.min_int < window rw <= Int64.max_int ->
  events (Add timestamp rw) =
  newer (timestamp - window rw) (events rw ++ [timestamp]) /\
  window (Add timestamp rw) = window rw /\
  (forall t, In t (events (Add timestamp rw)) -> timestamp - t < window rw).
Proof.
  intros Hw. split; [|split].
  - rewrite Add_events. unfold Int64.neg.
    rewrite Int64Facts.wrap_in_range
      by (unfold Int64.in_range, Int64.min_int, Int64.max_int in *; lia).
    reflexivity.
  - reflexivity.
  - intros t. now apply Add_retained_recent.
Qed.

Lemma Add_keeps_only_recent_witness :
  events (Add 100000000000 {| events := [1; 50000000000];
                              window := 60000000000 |})
  = [50000000000; 100000000000].
Proof.
  rewrite (proj1 (Add_keeps_only_recent 100000000000
                    {| events := [1; 50000000000]; window := 60000000000 |}
                    ltac:(split; reflexivity || discriminate))).
  reflexivity.
Defined.

(** C2, at the input where the code departs from it.  One event recorded
    at time 0 in a 60-second window; [Rate] is called 61 seconds later.  The
    call counts no event and returns [0.0], but it leaves the event in the
    window: an event 61 seconds old is retained after a read. *)
Theorem Rate_retains_expired_events :
  let rw := Add 0 (NewRateWindow (60 * Second)) in
  let now := 61 * Second in
  events rw = [0] /\
  Rate (F:=float) now rw = 0%float /\
  events (window_exec (WRate now) rw) = [0] /\
  window (window_exec (WRate now) rw) < now - 0.
Proof. repeat split. Qed.

(** ** The error classifier *)

Lemma first_found_app {E R : Type} (search : E -> option R)
      (before rest : list (option E)) :
  (forall e, In (Some e) before -> search e = None) ->
  first_found search (before ++ rest) = first_found search rest.
Proof.
  induction before as [|o before IH]; intros Hnone; [reflexivity|].
  simpl. destruct o as [e|].
  - rewrite (Hnone e) by (left; reflexivity).
    apply IH. intros e' Hin. apply Hnone. now right.
  - apply IH. intros e' Hin. apply Hnone. now right.
Qed.

Lemma first_found_None {E R : Type} (search : E -> option R)
      (errs : list (option E)) :
  first_found search errs = None ->
  forall e, In (Some e) errs -> search e = None.
Proof.
  induction errs as [|o errs IH]; intros Hnone e Hin; [destruct Hin|].
  simpl in Hnone. destruct o as [x|].
  - destruct (search x) eqn:Hx; [discriminate|].
    destruct Hin as [Heq | Hin]; [congruence | now apply IH].
  - destruct Hin as [Heq | Hin]; [discriminate | now apply IH].
Qed.

Lemma first_found_Some {E R : Type} (search : E -> option R)
      (errs : list (option E)) (found : R) :
  first_found search errs = Some found ->
  exists before e after,
    errs = before ++ Some e :: after /\
    (forall e', In (Some e') before -> search e' = None) /\
    search e = Some found.
Proof.
  induction errs as [|o errs IH]; intros Hfound; [discriminate|].
  simpl in Hfound. destruct o as [x|].
  - destruct (search x) as [r|] eqn:Hx.
    + injection Hfound as ->. exists [], x, errs.
      split; [reflexivity|]. split; [intros e' []|exact Hx].
    + destruct (IH Hfound) as (before & e & after & -> & Hnone & He).
      exists (Some x :: before), e, after.
      split; [reflexivity|]. split; [|exact He].
      intros e' [Heq | Hin]; [congruence | now apply Hnone].
  - destruct (IH Hfound) as (before & e & after & -> & Hnone & He).
    exists (None :: before), e, after.
    split; [reflexivity|]. split; [|exact He].
    intros e' [Heq | Hin]; [discriminate | now apply Hnone].
Qed.

(** Induction on the tree of an error. *)
Section ErrorTree.

Variable P : error -> Prop.

Hypothesis P_bot : forall e, P (ErrBot e).
Hypothesis P_nil_bot : P ErrNilBot.
Hypothesis P_leaf : forall msg asMethod, P (ErrOther msg asMethod NoUnwrap).
Hypothesis P_nil :
  forall msg asMethod, P (ErrOther msg asMethod (UnwrapError None)).
Hypothesis P_inner :
  forall msg asMethod inner,
    P inner -> P (ErrOther msg asMethod (UnwrapError (Some inner))).
Hypothesis P_all :
  forall msg asMethod errs,
    (forall e, In (Some e) errs -> P e) ->
    P (ErrOther msg asMethod (UnwrapErrors errs)).

Fixpoint error_tree_ind (err : error) : P err.
Proof.
  destruct err as [e | | msg asMethod [| [inner|] | errs]].
  - apply P_bot.
  - apply P_nil_bot.
  - apply P_leaf.
  - apply P_inner, error_tree_ind.
  - apply P_nil.
  - apply P_all. induction errs as [|o errs IH]; intros e Hin; [destruct Hin|].
    destruct o as [x|].
    + pose proof (error_tree_ind x) as Hx.
      destruct Hin as [Heq | Hin]; [injection Heq as <-; exact Hx|].
      exact (IH e Hin).
    + destruct Hin as [Heq | Hin]; [discriminate|]. exact (IH e Hin).
Qed.

End ErrorTree.

Lemma Misses_errors_as (err : error) : Misses err -> errors_as err = None.
Proof.
  induction 1 as [msg | msg | msg inner _ IH | msg errs _ IH]; simpl;
    try reflexivity; try exact IH.
  induction errs as [|o errs IHerrs]; [reflexivity|].
  simpl. destruct o as [x|].
  - rewrite (IH x) by (left; reflexivity).
    apply IHerrs. intros e Hin. apply IH. now right.
  - apply IHerrs. intros e Hin. apply IH. now right.
Qed.

Lemma Finds_errors_as (err : error) (botErr : option (BotError error)) :
  Finds err botErr -> errors_as err = Some botErr.
Proof.
  induction 1 as [e | | msg target unwrap | msg inner botErr _ IH
                 | msg before after e botErr Hbefore _ IH]; simpl;
    try reflexivity; try exact IH.
  rewrite first_found_app.
  - simpl. now rewrite IH.
  - intros e' Hin. apply Misses_errors_as, Hbefore, Hin.
Qed.

Lemma errors_as_sound (err : error) :
  (forall botErr, errors_as err = Some botErr -> Finds err botErr) /\
  (errors_as err = None -> Misses err).
Proof.
  induction err as [e | | msg asMethod | msg asMethod
                   | msg asMethod inner [IHf IHm] | msg asMethod errs IH]
    using error_tree_ind.
  - split; [|discriminate]. simpl. intros botErr [= <-]. constructor.
  - split; [|discriminate]. simpl. intros botErr [= <-]. constructor.
  - destruct asMethod as [target|]; simpl.
    + split; [|discriminate]. intros botErr [= <-]. constructor.
    + split; [discriminate|]. intros _. constructor.
  - destruct asMethod as [target|]; simpl.
    + split; [|discriminate]. intros botErr [= <-]. constructor.
    + split; [discriminate|]. intros _. constructor.
  - destruct asMethod as [target|]; simpl.
    + split; [|discriminate]. intros botErr [= <-]. constructor.
    + split.
      * intros botErr Hb. constructor. now apply IHf.
      * intros Hn. constructor. now apply IHm.
  - destruct asMethod as [target|]; simpl.
    + split; [|discriminate]. intros botErr [= <-]. constructor.
    + split.
      * intros botErr Hb.
        destruct (first_found_Some _ _ _ Hb)
          as (before & e & after & -> & Hnone & He).
        constructor.
        -- intros e' Hin. apply IH; [|now apply Hnone].
           apply in_or_app. now left.
        -- apply IH; [|exact He]. apply in_or_app. right. now left.
      * intros Hn. constructor. intros e Hin.
        apply IH; [exact Hin|]. exact (first_found_None _ _ Hn e Hin).
Qed.

Lemma Finds_functional (err : error) (botErr botErr' : option (BotError error)) :
  Finds err botErr -> Finds err botErr' -> botErr = botErr'.
Proof.
  intros Hf Hf'. apply Finds_errors_as in Hf, Hf'. congruence.
Qed.

Lemma Finds_not_Misses (err : error) (botErr : option (BotError error)) :
  Finds err botErr -> ~ Misses err.
Proof.
  intros Hf Hm. apply Finds_errors_as in Hf. apply Misses_errors_as in Hm.
  congruence.
Qed.




(** ** The error map *)

Lemma copy_loop (src : gmap ErrorType Z) :
  map_fold (fun k v acc => <[k := v]> acc) ∅ src = src.
Proof.
  apply (map_fold_weak_ind (fun r m => r = m)); [reflexivity|].
  intros i x m r _ ->. reflexivity.
Qed.

Lemma map_at_insert_eq (st : MapStore) (l : loc) (em : gmap ErrorType Z) :
  map_at (<[l := em]> st) l = em.
Proof. unfold map_at. now rewrite lookup_insert_eq. Qed.

Section ErrorMap.

Context {F : Type} `{Float64 F}.

Lemma IncrementError_entry (c : ErrorType) (w : World F) :
  error_entry (IncrementError c w) c = Some (Int64.incr (error_count w c)).
Proof.
  unfold error_count, error_entry, IncrementError, map_incr; simpl.
  rewrite map_at_insert_eq. now rewrite lookup_insert_eq.
Qed.

Lemma IncrementError_entry_ne (c c' : ErrorType) (w : World F) :
  c' <> c -> error_entry (IncrementError c w) c' = error_entry w c'.
Proof.
  intros Hne. unfold error_entry, IncrementError, map_incr; simpl.
  rewrite map_at_insert_eq. now rewrite lookup_insert_ne.
Qed.

Lemma IncrementError_maps_ne (c : ErrorType) (w : World F) (l : loc) :
  l <> ErrorsByType (self w) -> maps (IncrementError c w) !! l = maps w !! l.
Proof.
  intros Hne. unfold IncrementError, map_incr; simpl.
  now rewrite lookup_insert_ne.
Qed.

Lemma IncrementError_allocated (c : ErrorType) (w : World F) :
  allocated (IncrementError c w).
Proof.
  unfold allocated, IncrementError, map_incr; simpl.
  rewrite lookup_insert_eq. eauto.
Qed.

Lemma exec_maps_ne (s : Step) (w : World F) (l : loc) :
  l <> ErrorsByType (self w) -> maps (exec w s) !! l = maps w !! l.
Proof.
  intros Hne. destruct s; try reflexivity. now apply IncrementError_maps_ne.
Qed.

Lemma exec_ErrorsByType (s : Step) (w : World F) :
  ErrorsByType (self (exec w s)) = ErrorsByType (self w).
Proof. destruct s; reflexivity. Qed.

(** No run of the recording interface touches a map other than the
    registry's own. *)
Lemma run_maps_ne (tr : list Step) :
  forall (w : World F) (l : loc),
    l <> ErrorsByType (self w) -> maps (run w tr) !! l = maps w !! l.
Proof.
  induction tr as [|s tr IH]; intros w l Hne; [reflexivity|].
  simpl. rewrite IH by now rewrite exec_ErrorsByType.
  now apply exec_maps_ne.
Qed.

Lemma exec_entry_ne (c : ErrorType) (s : Step) (w : World F) :
  s <> SError c -> error_entry (exec w s) c = error_entry w c.
Proof.
  intros Hne. destruct s; try reflexivity.
  apply IncrementError_entry_ne. congruence.
Qed.

Lemma repeated_errors (c : ErrorType) (n : nat) :
  forall (w : World F) (k : Z),
    error_count w c = Int64.wrap k ->
    error_count (run w (repeat (SError c) n)) c = Int64.wrap (k + Z.of_nat n).
Proof.
  induction n as [|n IH]; intros w k Hk.
  - simpl. now rewrite Z.add_0_r.
  - simpl repeat. simpl run.
    rewrite (IH _ (k + 1)).
    + f_equal. lia.
    + unfold error_count at 1.
      rewrite IncrementError_entry, Hk. simpl. apply Int64Facts.incr_wrap.
Qed.

Lemma repeated_errors_ne (c c' : ErrorType) (n : nat) :
  c' <> c ->
  forall w : World F,
    error_entry (run w (repeat (SError c) n)) c' = error_entry w c'.
Proof.
  intros Hne. induction n as [|n IH]; intros w; [reflexivity|].
  simpl repeat. simpl run. rewrite IH. now apply IncrementError_entry_ne.
Qed.

Lemma GetSummary_copy (fmt : Time -> string) (now : Time) (w : World F) :
  let s := fst (GetSummary fmt now w) in
  let w' := snd (GetSummary fmt now w) in
  sErrorsByType s = fresh (dom (maps w)) /\
  maps w' =
  <[sErrorsByType s := map_at (maps w) (ErrorsByType (self w))]> (maps w) /\
  self w' = self w.
Proof.
  unfold GetSummary, copy_errors, make_map; simpl.
  rewrite map_at_insert_eq, copy_loop, insert_insert_eq. auto.
Qed.

End ErrorMap.

(** C9. On a registry whose error map is in memory, [IncrementError c]
    leaves category [c] present with its count raised by [int64] increment,
    an absent category counting as zero: an unseen category becomes 1, and a
    count below the largest [int64] goes up by exactly one.  The entry of
    every other category, present or absent, every field of the registry and
    every other map in memory are unchanged.  After [n] calls for a category
    unseen before, [n] within [int64], its count is [n] and the other
    categories are as they were. *)
Theorem IncrementError_frame {F : Type} `{Float64 F}
        (c : ErrorType) (w : World F) :
  allocated w ->
  let w' := IncrementError c w in
  error_entry w' c = Some (Int64.incr (error_count w c)) /\
  (error_entry w c = None -> error_entry w' c = Some 1) /\
  (0 <= error_count w c < Int64.max_int ->
   error_count w' c = error_count w c + 1) /\
  (forall c', c' <> c -> error_entry w' c' = error_entry w c') /\
  self w' = self w /\
  (forall l, l <> ErrorsByType (self w) -> maps w' !! l = maps w !! l) /\
  allocated w' /\
  (forall n : nat,
      error_entry w c = None -> Z.of_nat n <= Int64.max_int ->
      error_count (run w (repeat (SError c) n)) c = Z.of_nat n /\
      forall c', c' <> c ->
                 error_entry (run w (repeat (SError c) n)) c' =
                 error_entry w c').
Proof.
  intros _ w'. subst w'.
  split; [apply IncrementError_entry|].
  split.
  { intros Hnone. rewrite IncrementError_entry.
    unfold error_count. now rewrite Hnone. }
  split.
  { intros Hrange. unfold error_count at 1. rewrite IncrementError_entry.
    simpl. apply Int64Facts.wrap_in_range.
    unfold Int64.in_range, Int64.min_int, Int64.max_int in *. lia. }
  split; [intros c'; apply IncrementError_entry_ne|].
  split; [reflexivity|].
  split; [intros l; apply IncrementError_maps_ne|].
  split; [apply IncrementError_allocated|].
  intros n Hnone Hn. split.
  - rewrite (repeated_errors c n w 0).
    + apply Int64Facts.wrap_in_range.
      unfold Int64.in_range, Int64.min_int, Int64.max_int in *. lia.
    + unfold error_count. now rewrite Hnone.
  - intros c' Hne. now apply repeated_errors_ne.
Qed.

Lemma IncrementError_frame_witness :
  error_entry (IncrementError ErrorTypeRateLimit
                 (Initialize_world (F:=float) 0 ∅)) ErrorTypeRateLimit
  = Some 1.
Proof.
  apply (IncrementError_frame (F:=float)).
  - unfold allocated. vm_compute. eauto.
  - reflexivity.
Defined.

(** C10. [GetSummary] changes no field of the registry and no map that was
    in memory, the registry's error map included.  The map of the summary is
    at an address that was unused before the call, hence not the registry's;
    it holds the entries the registry's map held at the call, and no later
    run of the recording interface changes it. *)
Theorem GetSummary_observes_only {F : Type} `{Float64 F}
        (fmt : Time -> string) (now : Time) (w : World F) :
  allocated w ->
  let s := fst (GetSummary fmt now w) in
  let w' := snd (GetSummary fmt now w) in
  self w' = self w /\
  (forall l, is_Some (maps w !! l) -> maps w' !! l = maps w !! l) /\
  (forall c, error_entry w' c = error_entry w c) /\
  maps w !! sErrorsByType s = None /\
  sErrorsByType s <> ErrorsByType (self w) /\
  maps w' !! sErrorsByType s =
  Some (map_at (maps w) (ErrorsByType (self w))) /\
  (forall tr : list Step,
      maps (run w' tr) !! sErrorsByType s = maps w' !! sErrorsByType s).
Proof.
  intros Halloc s w'.
  destruct (GetSummary_copy fmt now w) as (Hloc & Hmaps & Hself).
  fold s in Hloc, Hmaps. fold w' in Hmaps, Hself.
  assert (Hfresh : maps w !! sErrorsByType s = None).
  { rewrite Hloc. apply not_elem_of_dom, is_fresh. }
  assert (Hne : sErrorsByType s <> ErrorsByType (self w)).
  { intros Heq. rewrite Heq in Hfresh. destruct Halloc as [em Hem]. congruence. }
  split; [exact Hself|].
  split.
  { intros l [em Hem]. rewrite Hmaps, lookup_insert_ne; [reflexivity|].
    intros Heq. subst l. congruence. }
  split.
  { intros c. unfold error_entry, map_at. rewrite Hself, Hmaps.
    now rewrite lookup_insert_ne. }
  split; [exact Hfresh|].
  split; [exact Hne|].
  split; [rewrite Hmaps; apply lookup_insert_eq|].
  intros tr. apply run_maps_ne. now rewrite Hself.
Qed.

Lemma GetSummary_observes_only_witness :
  let w := IncrementError ErrorTypeNetwork (Initialize_world (F:=float) 0 ∅) in
  self (snd (GetSummary (fun _ => ""%string) 9 w)) = self w.
Proof.
  apply (GetSummary_observes_only (F:=float)).
  apply IncrementError_allocated.
Defined.

(** ** Testing the category of an error *)



(** X3.  What [FromHTTPStatus] builds: an error with the given message, no
    cause, one of five categories (never config, discord or network), and a
    context that is empty except for a zero ["retry_after"] on 429.  The
    status code itself is not kept: [StatusCode] is left at zero. *)
Theorem FromHTTPStatus_fields (statusCode : Z) (message : string) :
  let e := FromHTTPStatus statusCode message in
  Message e = message /\
  Cause e = None /\
  StatusCode e = 0 /\
  In (Type_ e) [ErrorTypeNotFound; ErrorTypeRateLimit; ErrorTypeValidation;
                ErrorTypeAPI; ErrorTypeInternal] /\
  Context e = (if statusCode =? 429 then [("retry_after"%string, 0)] else []) /\
  IsErrorType (Some (ErrBot e)) (Type_ e) = Some true /\
  IsErrorType (Some (ErrBot e)) ErrorTypeConfig = Some false /\
  IsErrorType (Some (ErrBot e)) ErrorTypeDiscord = Some false /\
  IsErrorType (Some (ErrBot e)) ErrorTypeNetwork = Some false.
Proof.
  unfold FromHTTPStatus.
  destruct (Z.eqb_spec statusCode 404) as [->|H404];
    [simpl; intuition reflexivity|].
  destruct (Z.eqb_spec statusCode 429) as [->|H429];
    [simpl; intuition reflexivity|].
  destruct ((400 <=? statusCode) && (statusCode <? 500))%bool;
    [simpl; intuition reflexivity|].
  destruct (500 <=? statusCode); simpl; intuition reflexivity.
Qed.

(** ** Every counter counts *)

Section Counting.

Context {F : Type} `{Float64 F}.

Lemma total_response_time_cons (s : Step) (tr : list Step) :
  total_response_time (s :: tr) =
  match s with
  | SAPILocked _ responseTimeMs => responseTimeMs
  | _ => 0
  end + total_response_time tr.
Proof. unfold total_response_time, response_times. destruct s; reflexivity. Qed.

Lemma exec_response_accumulators (s : Step) (w : World F) :
  APIResponseTimeSum (self (exec w s)) =
  match s with
  | SAPILocked _ responseTimeMs =>
      Int64.add (APIResponseTimeSum (self w)) responseTimeMs
  | _ => APIResponseTimeSum (self w)
  end /\
  APIResponseCount (self (exec w s)) =
  match s with
  | SAPILocked _ _ => Int64.incr (APIResponseCount (self w))
  | _ => APIResponseCount (self w)
  end.
Proof. destruct s; split; reflexivity. Qed.

(** The two accumulators behind the average follow the requests: the sum
    moves by each response time, the count by one. *)
Lemma run_response_accumulators (tr : list Step) :
  forall (sum count : Z) (w : World F),
    APIResponseTimeSum (self w) = Int64.wrap sum ->
    APIResponseCount (self w) = Int64.wrap count ->
    APIResponseTimeSum (self (run w tr)) =
    Int64.wrap (sum + total_response_time tr) /\
    APIResponseCount (self (run w tr)) =
    Int64.wrap (count + (requests_in true tr + requests_in false tr)).
Proof.
  induction tr as [|s tr IH]; intros sum count w Hsum Hcount.
  - unfold total_response_time, requests_in; simpl.
    now rewrite !Z.add_0_r.
  - simpl run. rewrite total_response_time_cons, !requests_in_cons.
    destruct (exec_response_accumulators s w) as [Hs Hc].
    rewrite Hsum in Hs. rewrite Hcount in Hc.
    destruct s as [?| | |b ms| | |];
      try (destruct (IH sum count _ Hs Hc) as [-> ->];
           split; f_equal; simpl; lia).
    unfold Int64.add in Hs. rewrite Int64Facts.wrap_add_l in Hs.
    rewrite Int64Facts.incr_wrap in Hc.
    destruct (IH _ _ _ Hs Hc) as [-> ->].
    split; f_equal; simpl; destruct b; simpl; lia.
Qed.

End Counting.

(** X4.  No update is lost.  After any run from the registry [Initialize]
    builds, each of the six counters is the [int64] image of the number of
    critical sections that moved it, [APIResponseCount] equals
    [APIRequestsTotal], and [APIResponseTimeSum] is the [int64] image of the
    sum of the response times passed in.  While a number is within [int64]
    the counter is that number. *)
Theorem counters_count_calls {F : Type} `{Float64 F}
        (now : Time) (st : MapStore) (tr : list Step) :
  let m := self (run (Initialize_world now st) tr) in
  let ok := commands_in true tr in
  let ko := commands_in false tr in
  let aok := requests_in true tr in
  let ako := requests_in false tr in
  CommandsSuccessful m = Int64.wrap ok /\
  CommandsFailed m = Int64.wrap ko /\
  CommandsTotal m = Int64.wrap (ok + ko) /\
  APIRequestsSuccessful m = Int64.wrap aok /\
  APIRequestsFailed m = Int64.wrap ako /\
  APIRequestsTotal m = Int64.wrap (aok + ako) /\
  APIResponseCount m = APIRequestsTotal m /\
  APIResponseTimeSum m = Int64.wrap (total_response_time tr) /\
  (ok + ko <= Int64.max_int ->
   CommandsSuccessful m = ok /\ CommandsFailed m = ko /\
   CommandsTotal m = ok + ko) /\
  (aok + ako <= Int64.max_int ->
   APIRequestsSuccessful m = aok /\ APIRequestsFailed m = ako /\
   APIRequestsTotal m = aok + ako).
Proof.
  intros m ok ko aok ako.
  destruct (run_command_counts tr 0 0 _ (Initialize_command_counts now st))
    as (Hs & Hf & Ht).
  destruct (run_request_counts tr 0 0 _ (Initialize_request_counts now st))
    as (Has & Haf & Hat).
  destruct (run_response_accumulators tr 0 0 (Initialize_world now st)
              eq_refl eq_refl) as [Hsum Hcount].
  fold m in Hs, Hf, Ht, Has, Haf, Hat, Hsum, Hcount.
  simpl in Hs, Hf, Ht, Has, Haf, Hat, Hsum, Hcount.
  fold ok in Hs, Ht. fold ko in Hf, Ht.
  fold aok in Has, Hat, Hcount. fold ako in Haf, Hat, Hcount.
  pose proof (commands_in_nonneg true tr).
  pose proof (commands_in_nonneg false tr).
  pose proof (requests_in_nonneg true tr).
  pose proof (requests_in_nonneg false tr).
  assert (Hwrap : forall z, 0 <= z <= Int64.max_int -> Int64.wrap z = z).
  { intros z Hz. apply Int64Facts.wrap_in_range.
    unfold Int64.in_range, Int64.min_int, Int64.max_int in *. lia. }
  rewrite Hs, Hf, Ht, Has, Haf, Hat, Hsum, Hcount.
  repeat split; try reflexivity; intros; apply Hwrap; lia.
Qed.

Lemma counters_count_calls_witness :
  let m := self (calls (Initialize_world (F:=float) 0 ∅)
                       [CallCommands true 1 2; CallAPIRequests false 250 3 4;
                        CallCommands false 5 6; CallAPIRequests true 40 7 8]) in
  CommandsTotal m = 2 /\ APIRequestsTotal m = 2.
Proof.
  rewrite calls_run.
  pose proof (counters_count_calls (F:=float) 0 ∅
                (flat_map steps_of
                   [CallCommands true 1 2; CallAPIRequests false 250 3 4;
                    CallCommands false 5 6; CallAPIRequests true 40 7 8]))
    as (_ & _ & _ & _ & _ & _ & _ & _ & Hc & Ha).
  split; [apply Hc | apply Ha]; vm_compute; discriminate.
Defined.

(** ** The average response time *)

(** X5.  After any run from the registry [Initialize] builds in which the sum of
    the response times and the number of requests are within [int64],
    [GetAverageResponseTime] is [0.0] if no request was recorded and
    otherwise the sum of all the response times passed in, divided by the
    number of requests: the arithmetic mean, in whatever order and with
    whatever outcomes the requests were recorded. *)
Theorem GetAverageResponseTime_is_mean {F : Type} `{Float64 F}
        (now : Time) (st : MapStore) (tr : list Step) :
  Int64.in_range (total_response_time tr) ->
  requests_in true tr + requests_in false tr <= Int64.max_int ->
  GetAverageResponseTime (self (run (Initialize_world now st) tr)) =
  if requests_in true tr + requests_in false tr =? 0 then of_int64 0
  else fdiv (of_int64 (total_response_time tr))
            (of_int64 (requests_in true tr + requests_in false tr)).
Proof.
  intros Hsum Hcount.
  destruct (run_response_accumulators tr 0 0 (Initialize_world now st)
              eq_refl eq_refl) as [Hs Hc].
  simpl in Hs, Hc.
  pose proof (requests_in_nonneg true tr).
  pose proof (requests_in_nonneg false tr).
  rewrite Int64Facts.wrap_in_range in Hs by exact Hsum.
  rewrite Int64Facts.wrap_in_range in Hc
    by (unfold Int64.in_range, Int64.min_int, Int64.max_int in *; lia).
  unfold GetAverageResponseTime. now rewrite Hs, Hc.
Qed.

Lemma GetAverageResponseTime_is_mean_witness :
  let m := self (run (Initialize_world (F:=Q) 0 ∅)
                     [SAPILocked true 100; SCommandsLocked true;
                      SAPILocked false 350; SAPIWindowAdd 5]) in
  (GetAverageResponseTime m == 225)%Q.
Proof.
  intros m. subst m.
  rewrite (GetAverageResponseTime_is_mean (F:=Q) 0 ∅
             [SAPILocked true 100; SCommandsLocked true;
              SAPILocked false 350; SAPIWindowAdd 5]).
  - reflexivity.
  - split; vm_compute; discriminate.
  - vm_compute; discriminate.
Defined.

(** ** Getters and the summary *)

(** X6.  After any run from the registry [Initialize] builds in which no counter
    has wrapped, the three getters return what a summary taken in the same
    state reports: the two success rates and the average response time.
    (The getters test a total against zero, the summary tests it for being
    positive.) *)
Theorem getters_agree_with_summary {F : Type} `{Float64 F}
        (fmt : Time -> string) (start now : Time) (st : MapStore)
        (tr : list Step) :
  countable tr ->
  let w := run (Initialize_world start st) tr in
  let s := fst (GetSummary fmt now w) in
  GetSuccessRate (self w) = sCommandSuccessRate s /\
  GetAPISuccessRate (self w) = sAPISuccessRate s /\
  GetAverageResponseTime (self w) = sAverageResponseTime s.
Proof.
  intros [Hc Hr] w s.
  destruct (run_command_counts tr 0 0 _ (Initialize_command_counts start st))
    as (_ & _ & Ht).
  destruct (run_request_counts tr 0 0 _ (Initialize_request_counts start st))
    as (_ & _ & Hat).
  destruct (run_response_accumulators tr 0 0 (Initialize_world start st)
              eq_refl eq_refl) as [_ Hcount].
  fold w in Ht, Hat, Hcount.
  replace (0 + commands_in true tr + (0 + commands_in false tr))
    with (commands_in true tr + commands_in false tr) in Ht by lia.
  replace (0 + requests_in true tr + (0 + requests_in false tr))
    with (requests_in true tr + requests_in false tr) in Hat by lia.
  replace (0 + (requests_in true tr + requests_in false tr))
    with (requests_in true tr + requests_in false tr) in Hcount by lia.
  pose proof (commands_in_nonneg true tr).
  pose proof (commands_in_nonneg false tr).
  pose proof (requests_in_nonneg true tr).
  pose proof (requests_in_nonneg false tr).
  rewrite Int64Facts.wrap_in_range in Ht, Hat, Hcount
    by (unfold Int64.in_range, Int64.min_int, Int64.max_int in *; lia).
  subst s. unfold GetSummary, copy_errors, make_map; simpl.
  unfold GetSuccessRate, GetAPISuccessRate, GetAverageResponseTime.
  rewrite Ht, Hat, Hcount.
  set (n := commands_in true tr + commands_in false tr) in *.
  set (k := requests_in true tr + requests_in false tr) in *.
  assert (Hn : 0 <= n) by (subst n; lia).
  assert (Hk : 0 <= k) by (subst k; lia).
  clearbody n k w. clear - Hn Hk.
  assert (Hn' : (n =? 0) = negb (0 <? n))
    by (destruct (Z.eqb_spec n 0), (Z.ltb_spec 0 n); simpl; lia).
  assert (Hk' : (k =? 0) = negb (0 <? k))
    by (destruct (Z.eqb_spec k 0), (Z.ltb_spec 0 k); simpl; lia).
  rewrite Hn', Hk'.
  destruct (0 <? n), (0 <? k); repeat split; reflexivity.
Qed.

Lemma getters_agree_with_summary_witness :
  let w := run (Initialize_world (F:=float) 0 ∅)
               [SCommandsLocked true; SCommandsLocked false;
                SAPILocked true 12] in
  GetSuccessRate (self w) =
  sCommandSuccessRate (fst (GetSummary (fun _ => ""%string) 9 w)).
Proof.
  intros w.
  assert (Hcount : countable [SCommandsLocked true; SCommandsLocked false;
                              SAPILocked true 12])
    by (split; vm_compute; discriminate).
  exact (proj1 (getters_agree_with_summary (F:=float) (fun _ => ""%string)
                  0 9 ∅ _ Hcount)).
Defined.

(** ** The window over a sequence of writes *)

Lemma record_all_snoc (ts : list Time) (t : Time) (rw : RateWindow) :
  record_all (ts ++ [t]) rw = Add t (record_all ts rw).
Proof. unfold record_all. now rewrite fold_left_app. Qed.

Lemma record_all_app (ts ts' : list Time) (rw : RateWindow) :
  record_all (ts ++ ts') rw = record_all ts' (record_all ts rw).
Proof. unfold record_all. now rewrite fold_left_app. Qed.

Lemma record_all_window (ts : list Time) (rw : RateWindow) :
  window (record_all ts rw) = window rw.
Proof.
  induction ts as [|t ts IH] using rev_ind; [reflexivity|].
  now rewrite record_all_snoc, Add_window.
Qed.

Lemma newer_app (c : Time) (l1 l2 : list Time) :
  newer c (l1 ++ l2) = newer c l1 ++ newer c l2.
Proof. apply List.filter_app. Qed.

Lemma newer_newer (c c' : Time) (l : list Time) :
  c' <= c -> newer c (newer c' l) = newer c l.
Proof.
  intros Hle. unfold newer, After. induction l as [|e l IH]; [reflexivity|].
  simpl. destruct (Z.ltb_spec c' e), (Z.ltb_spec c e); simpl; try lia.
  - destruct (Z.ltb_spec c e); [|lia]. now rewrite IH.
  - destruct (Z.ltb_spec c e); [lia|]. exact IH.
  - exact IH.
Qed.

Lemma newer_length (c : Time) (l : list Time) :
  (length (newer c l) <= length l)%nat.
Proof. apply List.filter_length_le. Qed.

Lemma neg_in_range (W : Duration) :
  Int64.min_int < W <= Int64.max_int -> Int64.neg W = - W.
Proof.
  intros HW. apply Int64Facts.wrap_in_range.
  unfold Int64.in_range, Int64.min_int, Int64.max_int in *. lia.
Qed.

Lemma record_all_sorted (W : Duration) (ts : list Time) :
  Int64.min_int < W <= Int64.max_int ->
  StronglySorted Z.le ts ->
  events (record_all ts (NewRateWindow W)) =
  match last ts with
  | None => []
  | Some latest => newer (latest - W) ts
  end.
Proof.
  intros HW. induction ts as [|t ts IH] using rev_ind; intros Hs;
    [reflexivity|].
  destruct (proj1 (StronglySorted_app _ _ _) Hs) as (Hle & Hts & _).
  rewrite last_snoc, record_all_snoc, Add_events, record_all_window.
  simpl window. rewrite (neg_in_range W HW).
  rewrite !newer_app, (IH Hts).
  change (t + - W) with (t - W). f_equal.
  destruct (last ts) as [latest|] eqn:Hlast.
  - apply newer_newer.
    assert (latest <= t); [|lia].
    apply Hle; [|now apply list_elem_of_singleton].
    apply last_Some in Hlast as [l' ->].
    apply elem_of_app. right. now apply list_elem_of_singleton.
  - apply last_None in Hlast. now subst ts.
Qed.

(** X7.  With timestamps that never go back, as a monotonic clock gives them,
    the window holds after any number of writes exactly the timestamps
    written that lie within [W] of the latest one, in the order written:
    nothing older is kept, nothing that recent is lost.  So it never holds
    more events than were written, and it keeps its duration. *)
Theorem record_all_sliding (W : Duration) (ts : list Time) :
  Int64.min_int < W <= Int64.max_int ->
  StronglySorted Z.le ts ->
  let rw := record_all ts (NewRateWindow W) in
  events rw = match last ts with
              | None => []
              | Some latest => newer (latest - W) ts
              end /\
  (length (events rw) <= length ts)%nat /\
  window rw = W.
Proof.
  intros HW Hs rw. subst rw.
  rewrite (record_all_sorted W ts HW Hs). repeat split.
  - destruct (last ts); [apply newer_length | simpl; lia].
  - apply record_all_window.
Qed.

Lemma record_all_sliding_witness :
  events (record_all [0; 30000000000; 70000000000; 90000000000]
                     (NewRateWindow (60 * Second)))
  = [70000000000; 90000000000].
Proof.
  apply (record_all_sliding (60 * Second)
           [0; 30000000000; 70000000000; 90000000000]).
  - split; vm_compute; [reflexivity | discriminate].
  - repeat (constructor; [| repeat constructor; vm_compute; discriminate]).
    constructor.
Defined.

(** [d.Seconds()] in exact arithmetic is [d] nanoseconds over [10^9]. *)
Lemma Seconds_exact (d : Duration) :
  (Seconds (F:=Q) d == d # 1000000000)%Q.
Proof.
  unfold Seconds, Second; simpl.
  pose proof (Z.quot_rem' d 1000000000) as Hd.
  unfold Qeq, Qplus, Qdiv, Qmult, Qinv, inject_Z; simpl.
  set (q := Z.quot d 1000000000) in *.
  set (r := Z.rem d 1000000000) in *. lia.
Qed.

(** X8.  What [Rate] returns does not depend on the expired events it leaves
    in the window.  With timestamps that never go back and a clock reading
    [now] not before the latest of them, the rate of a window of positive
    duration [W] is [0.0] if the window holds no event and otherwise the
    number of timestamps written after [now - W], converted to [float64] and
    divided by [W.Seconds()]; in exact arithmetic that is, in both cases, the
    number of timestamps written after [now - W] divided by [W] in
    seconds. *)
Theorem Rate_counts_trailing_window (W : Duration) (ts : list Time)
        (now : Time) :
  0 < W <= Int64.max_int ->
  StronglySorted Z.le ts ->
  Forall (fun t => t <= now) ts ->
  let recent := Z.of_nat (length (newer (now - W) ts)) in
  let rw := record_all ts (NewRateWindow W) in
  (forall (F : Type) (ops : Float64 F),
      Rate (F:=F) now rw =
      match events rw with
      | [] => of_int64 0
      | _ => fdiv (of_int64 recent) (Seconds W)
      end) /\
  (Rate (F:=Q) now rw == inject_Z recent / inject_Z W * 1000000000)%Q.
Proof.
  intros HW Hs Hnow recent rw. subst recent rw.
  assert (HW' : Int64.min_int < W <= Int64.max_int)
    by (unfold Int64.min_int in *; lia).
  pose proof (record_all_sorted W ts HW' Hs) as Hev.
  pose proof (record_all_window ts (NewRateWindow W)) as Hwin.
  simpl in Hwin.
  assert (Hcount : newer (now - W) (events (record_all ts (NewRateWindow W)))
                   = newer (now - W) ts).
  { rewrite Hev. destruct (last ts) as [latest|] eqn:Hlast.
    - apply newer_newer.
      apply last_Some in Hlast as [l' ->].
      apply Forall_app in Hnow as [_ Hlatest].
      apply Forall_cons in Hlatest as [Hlatest _]. lia.
    - apply last_None in Hlast. now subst ts. }
  assert (Hgen : forall (F : Type) (ops : Float64 F),
             Rate (F:=F) now (record_all ts (NewRateWindow W)) =
             match events (record_all ts (NewRateWindow W)) with
             | [] => of_int64 0
             | _ => fdiv (of_int64 (Z.of_nat (length (newer (now - W) ts))))
                         (Seconds W)
             end).
  { intros F ops.
    destruct (events (record_all ts (NewRateWindow W))) as [|e l] eqn:Hevents.
    - unfold Rate. now rewrite Hevents.
    - rewrite Rate_nonempty by (rewrite Hevents; discriminate).
      rewrite Hwin, (neg_in_range W HW'), Hevents.
      change (now + - W) with (now - W). now rewrite Hcount. }
  split; [exact Hgen|].
  rewrite (Hgen Q exact).
  destruct (events (record_all ts (NewRateWindow W))) as [|e l] eqn:Hevents.
  - rewrite <- Hcount. simpl.
    unfold Qeq, Qdiv, Qmult; simpl. reflexivity.
  - set (n := Z.of_nat (length (newer (now - W) ts))). clearbody n.
    change (inject_Z n / Seconds (F:=Q) W
            == inject_Z n / inject_Z W * 1000000000)%Q.
    rewrite Seconds_exact.
    destruct W as [|p|p]; try lia.
    unfold Qeq, Qdiv, Qmult, Qinv, inject_Z; simpl. lia.
Qed.

Lemma Rate_counts_trailing_window_witness :
  let rw := record_all [0; 30000000000; 70000000000; 90000000000]
                       (NewRateWindow (60 * Second)) in
  (Rate (F:=Q) 100000000000%Z rw == 2 # 60)%Q.
Proof.
  intros rw. subst rw.
  rewrite (fun a b c =>
             proj2 (Rate_counts_trailing_window (60 * Second)
                      [0; 30000000000; 70000000000; 90000000000]
                      100000000000 a b c)).
  - reflexivity.
  - split; vm_compute; [reflexivity | discriminate].
  - repeat (constructor; [| repeat constructor; vm_compute; discriminate]).
    constructor.
  - repeat constructor; vm_compute; discriminate.
Defined.

(** ** The windows and the start time of the registry *)

Section RegistryFrame.

Context {F : Type} `{Float64 F}.

Lemma command_stamps_cons (s : Step) (tr : list Step) :
  command_stamps (s :: tr) =
  match s with SCommandsWindowAdd now => [now] | _ => [] end
    ++ command_stamps tr.
Proof. reflexivity. Qed.

Lemma request_stamps_cons (s : Step) (tr : list Step) :
  request_stamps (s :: tr) =
  match s with SAPIWindowAdd now => [now] | _ => [] end
    ++ request_stamps tr.
Proof. reflexivity. Qed.

Lemma run_windows (tr : list Step) :
  forall w : World F,
    commandWindow (self (run w tr)) =
    record_all (command_stamps tr) (commandWindow (self w)) /\
    apiWindow (self (run w tr)) =
    record_all (request_stamps tr) (apiWindow (self w)) /\
    BotStartTime (self (run w tr)) = BotStartTime (self w) /\
    ErrorsByType (self (run w tr)) = ErrorsByType (self w).
Proof.
  induction tr as [|s tr IH]; intros w; [repeat split|].
  simpl run. destruct (IH (exec w s)) as (Hc & Ha & Hb & He).
  rewrite Hc, Ha, Hb, He, command_stamps_cons, request_stamps_cons,
    !record_all_app.
  destruct s; repeat split.
Qed.

End RegistryFrame.

(** X9.  Along any run from the registry [Initialize] builds, in any
    interleaving, each of the two windows is the 60-second window after the
    writes of its own kind, in their order, whatever else was recorded; the
    start time and the address of the error map stay those of the
    construction.  With timestamps that never go back, the command window
    holds exactly the command timestamps within 60 seconds of the latest
    one, and the API window likewise. *)
Theorem registry_windows {F : Type} `{Float64 F}
        (start : Time) (st : MapStore) (tr : list Step) :
  let m := self (run (Initialize_world start st) tr) in
  let minute := 60000000000 in
  commandWindow m = record_all (command_stamps tr) (NewRateWindow minute) /\
  apiWindow m = record_all (request_stamps tr) (NewRateWindow minute) /\
  BotStartTime m = start /\
  ErrorsByType m = fresh (dom st) /\
  (StronglySorted Z.le (command_stamps tr) ->
   events (commandWindow m) =
   match last (command_stamps tr) with
   | None => []
   | Some latest => newer (latest - minute) (command_stamps tr)
   end) /\
  (StronglySorted Z.le (request_stamps tr) ->
   events (apiWindow m) =
   match last (request_stamps tr) with
   | None => []
   | Some latest => newer (latest - minute) (request_stamps tr)
   end).
Proof.
  intros m minute.
  destruct (run_windows tr (Initialize_world start st)) as (Hc & Ha & Hb & He).
  fold m in Hc, Ha, Hb, He.
  assert (Hminute : Int64.min_int < minute <= Int64.max_int)
    by (split; vm_compute; [reflexivity | discriminate]).
  split; [exact Hc|]. split; [exact Ha|].
  split; [exact Hb|]. split; [exact He|].
  split; intros Hs.
  - rewrite Hc. apply (record_all_sorted minute _ Hminute Hs).
  - rewrite Ha. apply (record_all_sorted minute _ Hminute Hs).
Qed.

Lemma registry_windows_witness :
  events (commandWindow
            (self (calls (Initialize_world (F:=float) 0 ∅)
                         [CallCommands true 1000000000 1000000001;
                          CallAPIRequests true 5 2000000000 2000000001;
                          CallCommands false 70000000000 70000000001])))
  = [70000000000].
Proof.
  rewrite calls_run.
  apply (registry_windows (F:=float) 0 ∅).
  repeat (constructor; [| repeat constructor; vm_compute; discriminate]).
  constructor.
Defined.

(** ** One registry for the package *)

Section Singleton.

Context {F : Type} `{Float64 F}.

Variable fmt : Time -> string.

(** What a panicking call is: a [RecordError] on an error in which
    [errors.As] leaves a nil pointer. *)
Lemma package_call_built (start : Time) (l : loc) (p : Package F)
      (c : PackageCall) :
  built_as start l p ->
  match package_call fmt p c with
  | Some p' => built_as start l p'
  | None => exists err initNow,
              c = PRecordError err initNow /\ errors_As err = Some None
  end.
Proof.
  intros (m & Hm & Hs & Hl & Hc & Ha).
  destruct c as [i|b i n r|b ms i n r|err i|i n]; unfold package_call.
  - unfold Initialize, put. rewrite Hm. simpl. exists m. auto.
  - unfold RecordCommand, Get, put. rewrite Hm. simpl.
    eexists. split; [reflexivity|]. simpl. auto.
  - unfold RecordAPIRequest, Get, put. rewrite Hm. simpl.
    eexists. split; [reflexivity|]. simpl. auto.
  - unfold RecordError, Get, put. rewrite Hm.
    destruct (errors_As err) as [[botErr|]|] eqn:He; simpl;
      [exists m; auto | exists err, i; auto | exists m; auto].
  - unfold Get, put. rewrite Hm. simpl. exists m. auto.
Qed.

Lemma package_calls_built (start : Time) (l : loc) (cs : list PackageCall) :
  forall p : Package F,
    built_as start l p ->
    match package_calls fmt p cs with
    | Some p' => built_as start l p'
    | None => exists err initNow,
                In (PRecordError err initNow) cs /\ errors_As err = Some None
    end.
Proof.
  induction cs as [|c cs IH]; intros p Hp; [exact Hp|].
  simpl. pose proof (package_call_built start l p c Hp) as Hc.
  destruct (package_call fmt p c) as [p'|].
  - specialize (IH p' Hc). destruct (package_calls fmt p' cs); [exact IH|].
    destruct IH as (err & i & Hin & He). exists err, i. split; [now right|exact He].
  - destruct Hc as (err & i & -> & He). exists err, i. split; [now left|exact He].
Qed.

Lemma first_call_builds (p : Package F) (c : PackageCall) :
  globalMetrics p = None ->
  match package_call fmt p c with
  | Some p' => built_as (init_clock c) (fresh (dom (pmaps p))) p'
  | None => exists err initNow,
              c = PRecordError err initNow /\ errors_As err = Some None
  end.
Proof.
  intros Hnil.
  destruct c as [i|b i n r|b ms i n r|err i|i n]; unfold package_call.
  - unfold Initialize, put. rewrite Hnil. simpl.
    eexists. split; [reflexivity|]. simpl. auto.
  - unfold RecordCommand, Get, Initialize, put. rewrite Hnil. simpl.
    eexists. split; [reflexivity|]. simpl. auto.
  - unfold RecordAPIRequest, Get, Initialize, put. rewrite Hnil. simpl.
    eexists. split; [reflexivity|]. simpl. auto.
  - unfold RecordError, Get, Initialize, put. rewrite Hnil.
    destruct (errors_As err) as [[botErr|]|] eqn:He; simpl;
      [eexists; split; [reflexivity|]; simpl; auto
      | exists err, i; auto
      | eexists; split; [reflexivity|]; simpl; auto].
  - unfold Get, Initialize, put. rewrite Hnil. simpl.
    eexists. split; [reflexivity|]. simpl. auto.
Qed.

End Singleton.



(** ** Strings *)

Lemma append_cons (c : ascii) (a b : string) :
  String.append (String c a) b = String c (String.append a b).
Proof. reflexivity. Qed.

Lemma append_nil_l (b : string) : String.append "" b = b.
Proof. reflexivity. Qed.

Lemma append_assoc (a b c : string) :
  String.append (String.append a b) c = String.append a (String.append b c).
Proof.
  induction a as [|x a IH]; [reflexivity|].
  now rewrite !append_cons, IH.
Qed.

Lemma append_nil_r (a : string) : String.append a "" = a.
Proof.
  induction a as [|x a IH]; [reflexivity|]. now rewrite append_cons, IH.
Qed.

Lemma HasPrefix_app (p x : string) : Strings.HasPrefix (String.append p x) p = true.
Proof.
  unfold Strings.HasPrefix. induction p as [|c p IH].
  - now destruct x.
  - rewrite append_cons. simpl. destruct (ascii_dec c c); [exact IH | congruence].
Qed.

Lemma substring_all (x : string) : substring 0 (String.length x) x = x.
Proof. induction x as [|c x IH]; simpl; [reflexivity | now rewrite IH]. Qed.

Lemma TrimPrefix_app (p x : string) : Strings.TrimPrefix (String.append p x) p = x.
Proof.
  unfold Strings.TrimPrefix. rewrite HasPrefix_app.
  induction p as [|c p IH].
  - rewrite append_nil_l. simpl. rewrite Nat.sub_0_r. apply substring_all.
  - rewrite append_cons. simpl. exact IH.
Qed.

Lemma all_ascii_app (a b : string) :
  Strings.all_ascii (String.append a b) = (Strings.all_ascii a && Strings.all_ascii b)%bool.
Proof.
  unfold Strings.all_ascii. induction a as [|c a IH]; [reflexivity|].
  rewrite append_cons. simpl. rewrite IH. now rewrite andb_assoc.
Qed.

Lemma asciiSpace_is_ascii (c : ascii) : Strings.asciiSpace c = true -> Strings.is_ascii c = true.
Proof.
  unfold Strings.asciiSpace, Strings.is_ascii. intros Hs.
  apply Nat.ltb_lt.
  apply orb_true_iff in Hs as [Hs|Hs].
  - apply andb_true_iff in Hs as [_ Hs]. apply Nat.leb_le in Hs. lia.
  - apply Nat.eqb_eq in Hs. lia.
Qed.

Lemma blank_all_ascii (s : string) : blank s -> Strings.all_ascii s = true.
Proof.
  unfold blank, Strings.all_ascii. induction s as [|c s IH]; simpl; [reflexivity|].
  intros Hb. apply Forall_cons in Hb as [Hc Hs].
  now rewrite (asciiSpace_is_ascii c Hc), IH.
Qed.

Lemma solid_all_ascii (s : string) : solid s -> Strings.all_ascii s = true.
Proof.
  unfold solid, Strings.all_ascii. induction s as [|c s IH]; simpl; [reflexivity|].
  intros Hb. apply Forall_cons in Hb as [[Hc _] Hs]. now rewrite Hc, IH.
Qed.

Lemma fields_ascii_blank (s rest : string) :
  blank s -> Strings.fields_ascii "" (String.append s rest) = Strings.fields_ascii "" rest.
Proof.
  unfold blank. induction s as [|c s IH]; [reflexivity|].
  intros Hb. apply Forall_cons in Hb as [Hc Hs].
  rewrite append_cons. simpl. rewrite Hc. now apply IH.
Qed.

Lemma fields_ascii_solid (word : string) :
  forall (field rest : string),
    solid word ->
    Strings.fields_ascii field (String.append word rest) =
    Strings.fields_ascii (String.append field word) rest.
Proof.
  unfold solid. induction word as [|c word IH]; intros field rest Hw.
  - now rewrite append_nil_l, append_nil_r.
  - apply Forall_cons in Hw as [[_ Hc] Hw].
    rewrite append_cons. simpl. rewrite Hc.
    rewrite IH by exact Hw. now rewrite append_assoc.
Qed.

Lemma fields_ascii_head (word tail : string) :
  word <> EmptyString -> solid word ->
  tail = EmptyString \/ (exists c t, tail = String c t /\ Strings.asciiSpace c = true) ->
  exists args, Strings.fields_ascii "" (String.append word tail) = word :: args.
Proof.
  intros Hne Hw Htail.
  rewrite (fields_ascii_solid word "" tail Hw), append_nil_l.
  destruct Htail as [-> | (c & t & -> & Hc)]; simpl.
  - destruct (String.eqb_spec word ""); [contradiction|]. eauto.
  - rewrite Hc. destruct (String.eqb_spec word ""); [contradiction|]. eauto.
Qed.

(** ** The bot and the registry *)

Section BotFacts.
Context {F : Type} `{Float64 F}.
Variable fmt : Time -> string.
Variable uf : string -> list string.
Variable ul : string -> string.

Lemma bot_inv_init start st : bot_inv start 0 0 0 (put (Initialize_world (F:=F) start st)).
Proof.
  eexists. split; [reflexivity|]. simpl.
  split; [repeat split|]. split; [reflexivity|]. split; [reflexivity|].
  split; [reflexivity|].
  split. { unfold allocated; simpl. rewrite lookup_insert_eq. eauto. }
  split.
  - unfold error_count, error_entry, map_at; simpl. now rewrite lookup_insert_eq.
  - intros c _. unfold error_entry, map_at; simpl. now rewrite lookup_insert_eq.
Qed.

Lemma bot_inv_RecordCommand start ok ko e (p : Package F) (b : bool) i n r :
  bot_inv start ok ko e p ->
  bot_inv start (ok + (if b then 1 else 0)) (ko + (if b then 0 else 1)) e
          (RecordCommand b i n r p).
Proof.
  intros (m & Hm & (Hs & Hf & Ht) & Ha & Hc & Hst & Hal & He & Hno).
  unfold RecordCommand, Get, put. rewrite Hm. simpl.
  eexists. split; [reflexivity|]. simpl.
  split.
  { unfold command_counts, counts; simpl. rewrite Hs, Hf, Ht.
    destruct b; rewrite ?Int64Facts.incr_wrap, ?Z.add_0_r;
      repeat split; f_equal; lia. }
  repeat split; assumption.
Qed.

Lemma bot_inv_RecordError start ok ko e (p : Package F) msg cause i :
  bot_inv start ok ko e p ->
  exists p',
    RecordError (Some (ErrBot (NewDiscordError msg cause))) i p = Some p' /\
    bot_inv start ok ko (e + 1) p'.
Proof.
  intros (m & Hm & Hcnt & Ha & Hc & Hst & Hal & He & Hno).
  eexists. split; [reflexivity|].
  unfold Get; simpl. rewrite Hm.
  set (w := {| maps := pmaps p; self := m |}) in *.
  exists m. split; [reflexivity|].
  split; [exact Hcnt|]. split; [exact Ha|]. split; [exact Hc|].
  split; [exact Hst|].
  change {| maps := pmaps (put (IncrementError ErrorTypeDiscord w)); self := m |}
    with (IncrementError ErrorTypeDiscord w).
  split; [apply IncrementError_allocated|].
  split.
  - unfold error_count at 1. rewrite IncrementError_entry, He. simpl.
    apply Int64Facts.incr_wrap.
  - intros c Hne. rewrite IncrementError_entry_ne by exact Hne. now apply Hno.
Qed.

Lemma bot_inv_stats start ok ko e (p : Package F) i n :
  bot_inv start ok ko e p ->
  bot_inv start ok ko e (put (snd (GetSummary fmt n (Get i p)))).
Proof.
  intros (m & Hm & Hcnt & Ha & Hc & Hst & Hal & He & Hno).
  unfold Get. rewrite Hm.
  set (w := {| maps := pmaps p; self := m |}) in *.
  destruct (GetSummary_copy fmt n w) as (Hloc & Hmaps & Hself).
  rewrite Hloc in Hmaps. clear Hloc.
  set (w' := snd (GetSummary fmt n w)) in *. clearbody w'.
  assert (Hfresh : maps w !! fresh (dom (maps w)) = None)
    by apply not_elem_of_dom, is_fresh.
  assert (Hne : fresh (dom (maps w)) <> ErrorsByType (self w)).
  { intros Heq. rewrite Heq in Hfresh. destruct Hal as [em Hem]. congruence. }
  destruct w' as [mp sf]. subst w. simpl in *. subst sf mp.
  set (l := fresh (dom (pmaps p))) in *.
  assert (Hentry : forall c,
             error_entry {| maps := <[l := map_at (pmaps p) (ErrorsByType m)]>
                                      (pmaps p);
                            self := m |} c
             = error_entry {| maps := pmaps p; self := m |} c).
  { intros c. unfold error_entry, map_at. simpl.
    now rewrite lookup_insert_ne. }
  exists m. unfold put. simpl.
  split; [reflexivity|].
  split; [exact Hcnt|]. split; [exact Ha|]. split; [exact Hc|].
  split; [exact Hst|].
  split.
  { unfold allocated. simpl. rewrite lookup_insert_ne by exact Hne.
    exact Hal. }
  split.
  - unfold error_count. now rewrite (Hentry ErrorTypeDiscord).
  - intros c Hc'. rewrite (Hentry c). now apply Hno.
Qed.

Lemma NewBot_lookup (cfg : Config) (command : string) :
  commandHandlers (NewBot (F:=F) fmt cfg) !! command =
  if String.eqb command "stats" then Some (handleStats fmt)
  else if String.eqb command "help" then Some handleHelp
  else if String.eqb command "ping" then Some handlePing
  else None.
Proof.
  unfold NewBot, registerCommands; simpl.
  destruct (String.eqb_spec command "stats") as [->|Hs];
    [now rewrite lookup_insert_eq|].
  rewrite lookup_insert_ne by congruence.
  destruct (String.eqb_spec command "help") as [->|Hh];
    [now rewrite lookup_insert_eq|].
  rewrite lookup_insert_ne by congruence.
  destruct (String.eqb_spec command "ping") as [->|Hp];
    [now rewrite lookup_insert_eq|].
  rewrite lookup_insert_ne by congruence.
  apply lookup_empty.
Qed.

Lemma handlePing_ok : handler_ok (F:=F) handlePing.
Proof.
  intros env m args st. do 3 eexists. split.
  - unfold handlePing, send. destruct (sendFails env); reflexivity.
  - auto.
Qed.

Lemma handleHelp_ok : handler_ok (F:=F) handleHelp.
Proof.
  intros env m args st. do 3 eexists. split.
  - unfold handleHelp, send. destruct (sendFails env); reflexivity.
  - auto.
Qed.

Lemma handleStats_ok : handler_ok (handleStats fmt).
Proof.
  intros env m args st.
  exists "failed to send stats message"%string, (mkSent (ChannelID m) "Bot Statistics" ""),
    (put (snd (GetSummary fmt (statsNow env) (Get (statsInit env) (registry st))))).
  split.
  - unfold handleStats, send.
    destruct (GetSummary fmt (statsNow env) (Get (statsInit env) (registry st)));
      simpl. destruct (sendFails env); reflexivity.
  - intros start ok ko e. apply bot_inv_stats.
Qed.

Lemma NewBot_handlers_ok (cfg : Config) (command : string) (h : CommandHandler F) :
  commandHandlers (NewBot fmt cfg) !! command = Some h ->
  registered command = true /\ handler_ok h.
Proof.
  rewrite NewBot_lookup. unfold registered.
  destruct (String.eqb command "stats"), (String.eqb command "help"),
    (String.eqb command "ping"); simpl; intros Heq;
    try discriminate; injection Heq as <-;
    auto using handlePing_ok, handleHelp_ok, handleStats_ok.
Qed.

Lemma NewBot_unregistered (cfg : Config) (command : string) :
  commandHandlers (NewBot (F:=F) fmt cfg) !! command = None ->
  registered command = false.
Proof.
  rewrite NewBot_lookup. unfold registered.
  destruct (String.eqb command "stats"), (String.eqb command "help"),
    (String.eqb command "ping"); simpl; intros Heq; try discriminate; reflexivity.
Qed.


Lemma messageCreate_step (cfg : Config) (em : Env * MessageCreate)
      (st : BotState F) (start : Time) (ok ko e : Z) :
  bot_inv start ok ko e (registry st) ->
  let run := b2z (runs_handler uf ul cfg em) in
  let fail := b2z (handler_fails uf ul cfg em) in
  exists st',
    messageCreate uf ul (NewBot fmt cfg) (fst em) (snd em) st = Some st' /\
    bot_inv start (ok + (run - fail)) (ko + fail) (e + fail) (registry st') /\
    Z.of_nat (length (outbox st')) =
    Z.of_nat (length (outbox st)) + b2z (gets_reply uf ul cfg em) + fail.
Proof.
  intros Hinv. destruct em as [env m]. simpl fst. simpl snd.
  unfold runs_handler, handler_fails, gets_reply, runs_handler, command_of,
    messageCreate. simpl snd. simpl fst.
  change (config (NewBot fmt cfg)) with cfg.
  destruct (AuthorBot m).
  { exists st. simpl. rewrite !Z.add_0_r. now repeat split. }
  destruct (Strings.HasPrefix (Content m) (CommandPrefix cfg)); simpl negb; cbv iota.
  2:{ exists st. simpl. rewrite !Z.add_0_r. now repeat split. }
  destruct (Fields uf (Strings.TrimPrefix (Content m) (CommandPrefix cfg)))
    as [|first args].
  { exists st. simpl. rewrite !Z.add_0_r. now repeat split. }
  destruct (commandHandlers (NewBot fmt cfg) !! ToLower ul first) as [h|] eqn:Hh.
  - destruct (NewBot_handlers_ok _ _ _ Hh) as [-> Hok].
    destruct (Hok env m args st) as (msg & sent & reg & -> & Hreg).
    specialize (Hreg _ _ _ _ Hinv).
    destruct (sendFails env) as [err|]; simpl.
    + destruct (bot_inv_RecordError start (ok + 0) (ko + 1) e
                  (RecordCommand false (commandInit env) (commandNow env)
                                 (commandRate env) reg)
                  msg (Some err) (errorInit env)) as (p2 & Hp2 & Hinv2).
      { apply (bot_inv_RecordCommand start ok ko e reg false), Hreg. }
      simpl in Hp2. injection Hp2 as Hp2.
      eexists. split; [reflexivity|]. simpl registry. simpl outbox.
      rewrite Hp2. split.
      * replace (ok + (1 - 1)) with (ok + 0) by lia. exact Hinv2.
      * rewrite !length_app. simpl. lia.
    + eexists. split; [reflexivity|]. simpl registry. simpl outbox. split.
      * replace (ok + (1 - 0)) with (ok + 1) by lia.
        rewrite <- (Z.add_0_r e).
        replace (e + 0 + 0) with e by lia.
        apply (bot_inv_RecordCommand start ok ko e reg true), Hreg.
      * rewrite !length_app. simpl. lia.
  - rewrite (NewBot_unregistered _ _ Hh).
    eexists. split; [reflexivity|]. simpl. rewrite !Z.add_0_r. split.
    + exact Hinv.
    + rewrite length_app. simpl. lia.
Qed.

Lemma how_many_cons {A} (f : A -> bool) (x : A) (l : list A) :
  how_many f (x :: l) = b2z (f x) + how_many f l.
Proof. unfold how_many. simpl. destruct (f x); simpl length; unfold b2z; lia. Qed.

Lemma how_many_le {A} (f g : A -> bool) (l : list A) :
  (forall x, f x = true -> g x = true) ->
  0 <= how_many f l <= how_many g l.
Proof.
  intros Himp. induction l as [|x l IH].
  - unfold how_many; simpl; lia.
  - rewrite !how_many_cons. specialize (Himp x).
    destruct (f x), (g x); unfold b2z; try lia.
Qed.

Lemma deliver_inv (cfg : Config) (start : Time) (ms : list (Env * MessageCreate)) :
  forall (st : BotState F) (ok ko e : Z),
    bot_inv start ok ko e (registry st) ->
    let n := how_many (runs_handler uf ul cfg) ms in
    let k := how_many (handler_fails uf ul cfg) ms in
    exists st',
      deliver uf ul (NewBot fmt cfg) st ms = Some st' /\
      bot_inv start (ok + (n - k)) (ko + k) (e + k) (registry st') /\
      Z.of_nat (length (outbox st')) =
      Z.of_nat (length (outbox st)) + how_many (gets_reply uf ul cfg) ms + k.
Proof.
  induction ms as [|em ms IH]; intros st ok ko e Hinv; cbv zeta.
  - exists st. unfold how_many; simpl. rewrite !Z.add_0_r. now repeat split.
  - destruct (messageCreate_step cfg em st start ok ko e Hinv)
      as (st1 & Hst1 & Hstep & Hout).
    destruct (IH _ _ _ _ Hstep) as (st' & Hst' & Hrest & Hout').
    exists st'. split.
    { simpl. rewrite Hst1. exact Hst'. }
    rewrite !how_many_cons. split.
    + replace (ok + (b2z (runs_handler uf ul cfg em) + how_many (runs_handler uf ul cfg) ms
                     - (b2z (handler_fails uf ul cfg em) + how_many (handler_fails uf ul cfg) ms)))
        with (ok + (b2z (runs_handler uf ul cfg em) - b2z (handler_fails uf ul cfg em))
              + (how_many (runs_handler uf ul cfg) ms - how_many (handler_fails uf ul cfg) ms)) by lia.
      rewrite !Z.add_assoc. exact Hrest.
    + rewrite Hout', Hout. lia.
Qed.
End BotFacts.



(** ** Reading a command *)

(** X12.  Whatever the prefix is, a message from a user that consists of the
    prefix, any number of ASCII blanks, a word of ASCII characters other than
    blanks, and then nothing more or a blank followed by ASCII text, is read
    as the command named by the word in lower case: letter case, blanks
    after the prefix and whatever follows the word make no difference.  A
    message that consists of the prefix and blanks only is no command. *)
Theorem command_of_word (uf : string -> list string) (ul : string -> string)
        (cfg : Config) (m : MessageCreate) (blanks word tail : string) :
  AuthorBot m = false ->
  blank blanks -> solid word ->
  tail = EmptyString \/
  (exists c t, tail = String c t /\ Strings.asciiSpace c = true /\
               Strings.all_ascii t = true) ->
  (Content m = String.append (CommandPrefix cfg) blanks ->
   command_of uf ul cfg m = None) /\
  (word <> EmptyString ->
   Content m = String.append (CommandPrefix cfg)
                 (String.append blanks (String.append word tail)) ->
   command_of uf ul cfg m = Some (Strings.map_ascii Strings.lower_ascii word)).
Proof.
  intros Hbot Hblanks Hword Htail. unfold command_of. rewrite Hbot. split.
  - intros ->. rewrite HasPrefix_app, TrimPrefix_app. simpl negb. cbv iota.
    unfold Fields. rewrite (blank_all_ascii _ Hblanks).
    rewrite <- (append_nil_r blanks).
    now rewrite (fields_ascii_blank blanks "" Hblanks).
  - intros Hne ->. rewrite HasPrefix_app, TrimPrefix_app. simpl negb. cbv iota.
    assert (Hascii : Strings.all_ascii tail = true).
    { destruct Htail as [-> | (c & t & -> & Hc & Ht)]; [reflexivity|].
      unfold Strings.all_ascii in *. simpl.
      now rewrite (asciiSpace_is_ascii c Hc), Ht. }
    unfold Fields.
    rewrite !all_ascii_app, (blank_all_ascii _ Hblanks),
      (solid_all_ascii _ Hword), Hascii. simpl andb. cbv iota.
    rewrite (fields_ascii_blank blanks _ Hblanks).
    destruct (fields_ascii_head word tail Hne Hword) as [args ->].
    { destruct Htail as [-> | (c & t & -> & Hc & _)]; eauto. }
    unfold ToLower. now rewrite (solid_all_ascii _ Hword).
Qed.

Lemma command_of_word_witness :
  command_of (fun _ => []) (fun s => s) (mkConfig ">>")
             (mkMessageCreate false "7" "ann" ">>  StAtS now!" "general")
  = Some "stats"%string.
Proof.
  apply (command_of_word (fun _ => []) (fun s => s) (mkConfig ">>")
           (mkMessageCreate false "7" "ann" ">>  StAtS now!" "general")
           "  " "StAtS" " now!").
  - reflexivity.
  - repeat constructor.
  - repeat constructor.
  - right. exists " "%char, "now!"%string. repeat split.
  - discriminate.
  - reflexivity.
Defined.

(** ** Messages that run no handler *)

(** X13.  A message that is read as no command leaves the bot as it was: nothing
    is sent and nothing recorded.  A command word that [registerCommands]
    did not register is answered by one error embed that names it, and
    leaves the registry untouched: an unknown command is not counted as a
    command, failed or otherwise, and records no error.  Neither call
    panics. *)
Theorem messageCreate_without_handler {F : Type} `{Float64 F}
        (fmt : Time -> string) (uf : string -> list string)
        (ul : string -> string) (cfg : Config) (env : Env)
        (m : MessageCreate) (st : BotState F) :
  (command_of uf ul cfg m = None ->
   messageCreate uf ul (NewBot fmt cfg) env m st = Some st) /\
  (forall command,
      command_of uf ul cfg m = Some command ->
      registered command = false ->
      messageCreate uf ul (NewBot fmt cfg) env m st =
      Some {| registry := registry st;
              outbox :=
                outbox st ++
                [mkSent (ChannelID m) "Error"
                        (String.append "Unknown command: "
                           (String.append (CommandPrefix cfg)
                              (String.append command
                                 (String.append ". Use "
                                    (String.append (CommandPrefix cfg)
                                       "help for available commands.")))))] |}).
Proof.
  unfold command_of, messageCreate.
  change (config (NewBot fmt cfg)) with cfg.
  destruct (AuthorBot m); [split; [reflexivity | discriminate]|].
  destruct (Strings.HasPrefix (Content m) (CommandPrefix cfg)); simpl negb;
    cbv iota; [|split; [reflexivity | discriminate]].
  destruct (Fields uf (Strings.TrimPrefix (Content m) (CommandPrefix cfg)))
    as [|first args]; [split; [reflexivity | discriminate]|].
  split; [discriminate|].
  intros command Hc Hreg. injection Hc as <-.
  rewrite (NewBot_lookup (F:=F)). unfold registered in Hreg.
  destruct (String.eqb (ToLower ul first) "stats"),
    (String.eqb (ToLower ul first) "help"),
    (String.eqb (ToLower ul first) "ping"); try discriminate.
  reflexivity.
Qed.

Lemma messageCreate_without_handler_witness :
  option_map registry
    (messageCreate (F:=float) (fun _ => []) (fun s => s)
       (NewBot (fun _ => ""%string) (mkConfig "!"))
       (mkEnv None 1 2 3 4 5 6)
       (mkMessageCreate false "7" "ann" "!dance" "general")
       {| registry := put (Initialize_world 0 ∅); outbox := [] |})
  = Some (put (Initialize_world 0 ∅)).
Proof.
  rewrite (proj2 (messageCreate_without_handler (F:=float)
                    (fun _ => ""%string) (fun _ => []) (fun s => s)
                    (mkConfig "!") (mkEnv None 1 2 3 4 5 6)
                    (mkMessageCreate false "7" "ann" "!dance" "general")
                    {| registry := put (Initialize_world 0 ∅); outbox := [] |})
                 "dance"%string eq_refl eq_refl).
  reflexivity.
Defined.
